(** * Raw logging of s2geometry's bundled base library (xbsl)

    A shallow embedding of
      - [s2/third_party/xbsl/base/log_severity.h]
      - [s2/third_party/xbsl/base/internal/raw_logging.h]
    and of the parts of the raw logger that those headers only declare.

    Conventions.
      - [int] and [enum class LogSeverity : int] are integers ([Z]); no
        operation modelled here does arithmetic that could leave the range of
        [int], except [offset - 1] in [Basename], which is only reached after
        a successful read of [fname[offset - 1]].
      - A [const char*] to a NUL-terminated array is the list of its
        characters before the terminator ([cstring]); reading the array at
        the position of the terminator gives NUL, reading anywhere else
        outside the array is undefined behaviour ([None]).
      - A function pointer is its address. *)

From Equations Require Import Equations.
From Equations.Prop Require Import Logic.
From Stdlib Require Import ZArith Bool Ascii String List Lia.
Import ListNotations.
Local Open Scope Z_scope.

(** ** C strings *)

Definition cstring := list ascii.

Definition lit (s : string) : cstring := list_ascii_of_string s.

Definition NUL : ascii := Ascii.zero.

(** [fname[i]] for a NUL-terminated array holding [fname]. *)
Definition char_at (fname : cstring) (i : Z) : option ascii :=
  if i <? 0 then None
  else if i <? Z.of_nat (length fname) then nth_error fname (Z.to_nat i)
  else if i =? Z.of_nat (length fname) then Some NUL
  else None.

(** The string seen through the pointer [fname + offset]. *)
Definition ptr_add (fname : cstring) (offset : Z) : cstring :=
  skipn (Z.to_nat offset) fname.

(** [sizeof(literal) - 1] *)
Definition sizeof_minus_1 (s : cstring) : Z := Z.of_nat (length s).

(** ** log_severity.h *)

Definition LogSeverity := Z.

Definition kInfo : LogSeverity := 0.
Definition kWarning : LogSeverity := 1.
Definition kError : LogSeverity := 2.
Definition kFatal : LogSeverity := 3.

Definition LogSeverities : list LogSeverity := [kInfo; kWarning; kError; kFatal].

Definition LogSeverityName (s : LogSeverity) : cstring :=
  if s =? kInfo then lit "INFO"
  else if s =? kWarning then lit "WARNING"
  else if s =? kError then lit "ERROR"
  else if s =? kFatal then lit "FATAL"
  else lit "UNKNOWN".

(** The strings [LogSeverityName] can return. *)
Definition severity_names : list cstring :=
  [lit "INFO"; lit "WARNING"; lit "ERROR"; lit "FATAL"; lit "UNKNOWN"].

Definition NormalizeLogSeverity (s : LogSeverity) : LogSeverity :=
  if s <? kInfo then kInfo
  else if s >? kFatal then kError
  else s.

(** The [int] overload: [static_cast<LogSeverity>(s)] keeps the value, the
    underlying type of the enumeration being [int]. *)
Definition NormalizeLogSeverity_int (s : Z) : LogSeverity :=
  NormalizeLogSeverity s.

(** ** raw_logging.h: Basename *)

Definition is_separator (c : ascii) : bool :=
  Ascii.eqb c "/"%char || Ascii.eqb c "\"%char.

(** The condition of the conditional expression of [Basename]:
    [offset == 0 || fname[offset - 1] == '/' || fname[offset - 1] == '\\'],
    with [None] when the read is out of bounds. *)
Definition Basename_cond (fname : cstring) (offset : Z) : option bool :=
  if offset =? 0 then Some true
  else match char_at fname (offset - 1) with
       | Some c => Some (is_separator c)
       | None => None
       end.

Equations? Basename (fname : cstring) (offset : Z) : option cstring
  by wf (Z.to_nat offset) lt :=
  Basename fname offset with inspect (Basename_cond fname offset) => {
    | exist _ (Some true) _ := Some (ptr_add fname offset);
    | exist _ (Some false) H := Basename fname (offset - 1);
    | exist _ None _ := None }.
Proof.
  unfold Basename_cond, char_at in H.
  destruct (Z.eqb_spec offset 0); [discriminate|].
  destruct (Z.ltb_spec (offset - 1) 0); [discriminate|]. lia.
Qed.

(** The same recursion with a bound on the number of calls: [None] when the
    bound is reached before the recursion ends, [Some r] when it ends with
    [r]. *)
Fixpoint Basename_calls (bound : nat) (fname : cstring) (offset : Z)
  : option (option cstring) :=
  match bound with
  | O => None
  | S bound' =>
      match Basename_cond fname offset with
      | Some true => Some (Some (ptr_add fname offset))
      | Some false => Basename_calls bound' fname (offset - 1)
      | None => Some None
      end
  end.

(** ** Build configuration

    Each translation unit is compiled with its own preprocessor definitions.
    [NDEBUG] only matters as defined or not; [STRIP_LOG] may be undefined or
    defined to an integer. *)

Record BuildConfig := {
  NDEBUG : bool;
  STRIP_LOG : option Z
}.

(** [!defined(STRIP_LOG) || STRIP_LOG == 0] is the unstripped case. *)
Definition strip_log (tu : BuildConfig) : bool :=
  match STRIP_LOG tu with
  | None => false
  | Some v => negb (v =? 0)
  end.

(** Modelled from the spec: the header only declares
    [extern const LogSeverity kLogDebugFatal]; its one definition lives in the
    library's own translation unit, which is not among the sources. It is
    [kFatal] when that unit is compiled without [NDEBUG] and [kError]
    otherwise. [base] is the configuration of that unit. *)
Definition kLogDebugFatal (base : BuildConfig) : LogSeverity :=
  if NDEBUG base then kError else kFatal.


(** The conversion of an integer of any integer type to [int], as it is done
    on an argument passed to a parameter of type [int]: a value of the range
    of [int] is kept, another is taken modulo 2^32. *)
Definition to_int (z : Z) : Z := (z + 2 ^ 31) mod 2 ^ 32 - 2 ^ 31.

(** The severity tokens accepted by [XBSL_RAW_LOG]: the macro pastes the
    token onto [XBSL_RAW_LOGGING_INTERNAL_]. The argument of [LEVEL] is an
    integer expression of any integer type, given by its value. *)
Inductive SeverityToken :=
| INFO
| WARNING
| ERROR
| FATAL
| DFATAL
| LEVEL (severity : Z).

Definition XBSL_RAW_LOGGING_INTERNAL (base : BuildConfig) (tok : SeverityToken)
  : LogSeverity :=
  match tok with
  | INFO => kInfo
  | WARNING => kWarning
  | ERROR => kError
  | FATAL => kFatal
  | DFATAL => kLogDebugFatal base
  | LEVEL severity => NormalizeLogSeverity_int (to_int severity)
  end.

(** ** The process as the raw logger sees it *)

Definition LogPrefixHook := Z.
Definition AbortHook := Z.

(** printf arguments *)
Inductive Arg :=
| ArgStr (s : cstring)
| ArgInt (z : Z).

(** What the process did, oldest first. *)
Inductive Event :=
| EvRawLog (severity : LogSeverity) (file : cstring) (line : Z)
    (format : cstring) (args : list Arg)
| EvPrefixHook (fn : LogPrefixHook) (severity : LogSeverity) (file : cstring)
    (line : Z) (buf_size : nat)
| EvWrite (bytes : cstring)
| EvAbortHook (fn : AbortHook) (file : cstring) (line : Z) (buffer : cstring)
    (prefix_end : nat).

Record Process := {
  log_prefix_hook : option LogPrefixHook;
  abort_hook : option AbortHook;
  trace : list Event
}.

Definition initial : Process :=
  {| log_prefix_hook := None; abort_hook := None; trace := [] |}.

Definition record_event (e : Event) (p : Process) : Process :=
  {| log_prefix_hook := log_prefix_hook p;
     abort_hook := abort_hook p;
     trace := trace p ++ [e] |}.

Definition set_log_prefix_hook (fn : LogPrefixHook) (p : Process) : Process :=
  {| log_prefix_hook := Some fn;
     abort_hook := abort_hook p;
     trace := trace p |}.

Definition set_abort_hook (fn : AbortHook) (p : Process) : Process :=
  {| log_prefix_hook := log_prefix_hook p;
     abort_hook := Some fn;
     trace := trace p |}.

(** A call either returns to its caller or ends the process. *)
Inductive Outcome :=
| Returned (p : Process)
| Terminated (p : Process).

Definition process_of (o : Outcome) : Process :=
  match o with
  | Returned p => p
  | Terminated p => p
  end.

Definition terminated (o : Outcome) : bool :=
  match o with
  | Returned _ => false
  | Terminated _ => true
  end.

(** What the raw logger takes from its surroundings. *)
Record Environment := {
  (** capacity of the output buffer *)
  kLogBufSize : nat;
  (** the text a format and its arguments stand for (the C library's
      formatter) *)
  format_text : cstring -> list Arg -> cstring;
  (** the code behind a prefix hook: from what happened so far and the
      arguments of the call (with the size of the window) to the verdict and
      the prefix it writes *)
  prefix_hook_code :
    LogPrefixHook -> list Event -> LogSeverity -> cstring -> Z -> nat ->
    bool * cstring;
  (** one call of the operating system's write on standard error: the number
      of bytes it took, or [None] when it failed *)
  sys_write : list Event -> cstring -> option nat;
  (** where and how the library reports a conflicting registration *)
  conflict_file : cstring;
  conflict_line : Z;
  conflict_format : cstring
}.

Section RawLogging.

(** The configuration the library itself was built with. *)
Variable base : BuildConfig.

Variable env : Environment.

(** Modelled from the spec: [SafeWriteToStderr] is declared in the header
    and defined elsewhere. Section 4.5: partial writes are retried, within
    a budget bounded by the length of the buffer; a failure is dropped. *)
Fixpoint write_retry (budget : nat) (s : cstring) (p : Process) : Process :=
  match budget, s with
  | S budget', _ :: _ =>
      match sys_write env (trace p) s with
      | Some n =>
          let k := Nat.min n (length s) in
          write_retry budget' (skipn k s) (record_event (EvWrite (firstn k s)) p)
      | None => p
      end
  | _, _ => p
  end.

(** Modelled from the spec: the retry budget of [SafeWriteToStderr] is the
    length of the buffer (section 5). *)
Definition SafeWriteToStderr (s : cstring) (p : Process) : Process :=
  write_retry (length s) s p.

(** Modelled from the spec: [RawLog] is declared in the header and defined
    elsewhere. Section 4.4, steps 1 and 3 to 7; step 2 is done by the macro
    [XBSL_RAW_LOG] below, which passes the basename as [file]. *)
Definition RawLog (severity : LogSeverity) (file : cstring) (line : Z)
    (format : cstring) (args : list Arg) (p : Process) : Outcome :=
  let p0 := record_event (EvRawLog severity file line format args) p in
  let severity := NormalizeLogSeverity severity in
  let message := format_text env format args in
  let '(emit, prefix, p1) :=
    match log_prefix_hook p0 with
    | Some fn =>
        let '(emit, prefix) :=
          prefix_hook_code env fn (trace p0) severity file line (kLogBufSize env) in
        (emit, firstn (kLogBufSize env) prefix,
         record_event
           (EvPrefixHook fn severity file line (kLogBufSize env)) p0)
    | None => (true, [], p0)
    end in
  let buffer := firstn (kLogBufSize env) (prefix ++ message) in
  let p2 :=
    if emit || (severity =? kFatal) then SafeWriteToStderr buffer p1 else p1 in
  if severity =? kFatal then
    Terminated
      match abort_hook p2 with
      | Some fn =>
          record_event (EvAbortHook fn file line buffer (length prefix)) p2
      | None => p2
      end
  else Returned p2.

(** Modelled from the spec: the [int] overload of [RawLog], declared in the
    header next to the first; the severity is normalized (step 1). *)
Definition RawLog_int (severity : Z) (file : cstring) (line : Z)
    (format : cstring) (args : list Arg) (p : Process) : Outcome :=
  RawLog (NormalizeLogSeverity_int severity) file line format args p.

(** Modelled from the spec: the registration functions are declared in the
    header and defined elsewhere. Section 4.3: a slot is set once; the same
    value again is accepted; another value is a fatal usage error, raw-logged
    and aborted. *)
Definition RegisterLogPrefixHook (fn : LogPrefixHook) (p : Process) : Outcome :=
  match log_prefix_hook p with
  | None => Returned (set_log_prefix_hook fn p)
  | Some old =>
      if old =? fn then Returned p
      else RawLog kFatal (conflict_file env) (conflict_line env)
             (conflict_format env) [] p
  end.

(** Modelled from the spec: as [RegisterLogPrefixHook], for the other
    slot. *)
Definition RegisterAbortHook (fn : AbortHook) (p : Process) : Outcome :=
  match abort_hook p with
  | None => Returned (set_abort_hook fn p)
  | Some old =>
      if old =? fn then Returned p
      else RawLog kFatal (conflict_file env) (conflict_line env)
             (conflict_format env) [] p
  end.

(** *** The macros of raw_logging.h

    A macro is expanded in a translation unit [tu], at [FILE] and [LINE].
    [None] stands for a program that does not compile: the initialiser of
    the [constexpr] basename must be a constant expression, which an
    out-of-bounds read is not. *)
Definition XBSL_RAW_LOG (tu : BuildConfig) (FILE : cstring) (LINE : Z)
    (severity : SeverityToken) (format : cstring) (args : list Arg)
    (p : Process) : option Outcome :=
  match Basename FILE (sizeof_minus_1 FILE) with
  | None => None
  | Some xbsl_raw_logging_internal_basename =>
      if strip_log tu then
        if XBSL_RAW_LOGGING_INTERNAL base severity =? kFatal then
          Some (RawLog kFatal xbsl_raw_logging_internal_basename LINE
                  format args p)
        else Some (Returned p)
      else
        Some (RawLog (XBSL_RAW_LOGGING_INTERNAL base severity)
                xbsl_raw_logging_internal_basename LINE format args p)
  end.

(** [condition_text] is [#condition], the spelling of the condition. *)
Definition XBSL_RAW_CHECK (tu : BuildConfig) (FILE : cstring) (LINE : Z)
    (condition : bool) (condition_text : cstring) (message : cstring)
    (p : Process) : option Outcome :=
  if negb condition then
    XBSL_RAW_LOG tu FILE LINE FATAL (lit "Check %s failed: %s")
      [ArgStr condition_text; ArgStr message] p
  else Some (Returned p).

(** *** Runs of a process *)

Inductive Call :=
| CallRawLog (severity : LogSeverity) (file : cstring) (line : Z)
    (format : cstring) (args : list Arg)
| CallRegisterLogPrefixHook (fn : LogPrefixHook)
| CallRegisterAbortHook (fn : AbortHook).

Definition do_call (c : Call) (p : Process) : Outcome :=
  match c with
  | CallRawLog severity file line format args =>
      RawLog severity file line format args p
  | CallRegisterLogPrefixHook fn => RegisterLogPrefixHook fn p
  | CallRegisterAbortHook fn => RegisterAbortHook fn p
  end.

(** Nothing runs after the process has ended. *)
Fixpoint run (cs : list Call) (p : Process) : Outcome :=
  match cs with
  | [] => Returned p
  | c :: cs' =>
      match do_call c p with
      | Returned p' => run cs' p'
      | Terminated p' => Terminated p'
      end
  end.

End RawLogging.

(** ** A sample configuration, to run the definitions on *)

(** A buffer of 3000 bytes; formats without conversions, which stand for
    themselves; a prefix hook that writes a prefix and asks for every message
    to be suppressed; a write that takes all it is given. *)
Definition sample_env : Environment := {|
  kLogBufSize := 3000;
  format_text := fun format _ => format;
  prefix_hook_code := fun _ _ _ _ _ _ => (false, lit "[hook] ");
  sys_write := fun _ s => Some (length s);
  conflict_file := lit "raw_logging.cc";
  conflict_line := 200;
  conflict_format := lit "hook already registered"
|}.

Definition release_build : BuildConfig :=
  {| NDEBUG := true; STRIP_LOG := None |}.

Definition stripped_build : BuildConfig :=
  {| NDEBUG := true; STRIP_LOG := Some 1 |}.

(** A process with both hooks registered. *)
Definition hooked : Process :=
  {| log_prefix_hook := Some 4096; abort_hook := Some 8192; trace := [] |}.

(** [q] is [p] later on: the same hooks, and a trace that continues the
    trace of [p] with [t]. *)
Definition continues (p : Process) (t : list Event) (q : Process) : Prop :=
  log_prefix_hook q = log_prefix_hook p /\
  abort_hook q = abort_hook p /\
  trace q = trace p ++ t.

(** ** raw_logging.h: the debug-only macros

    Without [NDEBUG] they are [XBSL_RAW_LOG] and [XBSL_RAW_CHECK]; with it
    they are [while (false)] followed by the same statement, which is still
    compiled and never run. *)

Definition RAW_DLOG (base : BuildConfig) (env : Environment)
    (tu : BuildConfig) (FILE : cstring) (LINE : Z) (severity : SeverityToken)
    (format : cstring) (args : list Arg) (p : Process) : option Outcome :=
  if NDEBUG tu then
    match XBSL_RAW_LOG base env tu FILE LINE severity format args p with
    | Some _ => Some (Returned p)
    | None => None
    end
  else XBSL_RAW_LOG base env tu FILE LINE severity format args p.

Definition RAW_DCHECK (base : BuildConfig) (env : Environment)
    (tu : BuildConfig) (FILE : cstring) (LINE : Z) (condition : bool)
    (condition_text message : cstring) (p : Process) : option Outcome :=
  if NDEBUG tu then
    match XBSL_RAW_CHECK base env tu FILE LINE condition condition_text
            message p with
    | Some _ => Some (Returned p)
    | None => None
    end
  else XBSL_RAW_CHECK base env tu FILE LINE condition condition_text message p.

(** ** string_view and memcmp

    [string_view.h] is not among the sources. A view is the list of the bytes
    it spans, from [data()] over [size()] bytes; [size_t] is [nat]. The
    member functions used by match.h and strip.h have their standard
    meaning; a call outside its precondition is [None]. *)

Definition string_view := list ascii.

Definition sv_empty (s : string_view) : bool :=
  match s with
  | [] => true
  | _ :: _ => false
  end.

(** [s.remove_prefix(n)], which requires [n <= s.size()]. *)
Definition remove_prefix (n : nat) (s : string_view) : option string_view :=
  if (n <=? length s)%nat then Some (skipn n s) else None.

(** [s.remove_suffix(n)], which requires [n <= s.size()]. *)
Definition remove_suffix (n : nat) (s : string_view) : option string_view :=
  if (n <=? length s)%nat then Some (firstn (length s - n) s) else None.

(** [s.substr(pos, n)], and [s.substr(pos)] for [n = None]; it requires
    [pos <= s.size()] and takes at most what is left. *)
Definition substr (pos : nat) (n : option nat) (s : string_view)
  : option string_view :=
  if (pos <=? length s)%nat then
    Some match n with
         | Some n => firstn n (skipn pos s)
         | None => skipn pos s
         end
  else None.

(** Bytes compare as [unsigned char]; only the sign of the result of
    [memcmp] is specified, here -1, 0 or 1. *)
Fixpoint bytes_compare (s1 s2 : list ascii) : Z :=
  match s1, s2 with
  | c1 :: s1', c2 :: s2' =>
      match N.compare (N_of_ascii c1) (N_of_ascii c2) with
      | Eq => bytes_compare s1' s2'
      | Lt => -1
      | Gt => 1
      end
  | _, _ => 0
  end.

(** [memcmp(s1, s2, n)] on the bytes at [s1] and [s2]: it reads [n] bytes of
    each, so both must have them. *)
Definition memcmp (s1 s2 : list ascii) (n : nat) : option Z :=
  if ((n <=? length s1) && (n <=? length s2))%nat
  then Some (bytes_compare (firstn n s1) (firstn n s2))
  else None.

(** ** match.h *)

Definition StartsWith (text prefix : string_view) : option bool :=
  if sv_empty prefix then Some true
  else if (length prefix <=? length text)%nat then
    match memcmp text prefix (length prefix) with
    | Some r => Some (0 =? r)
    | None => None
    end
  else Some false.

Definition EndsWith (text suffix : string_view) : option bool :=
  if sv_empty suffix then Some true
  else if (length suffix <=? length text)%nat then
    match memcmp (skipn (length text - length suffix) text) suffix
            (length suffix) with
    | Some r => Some (0 =? r)
    | None => None
    end
  else Some false.

Section IgnoreCase.

(** [strings_internal::memcasecmp] of memutil.h, which is not among the
    sources: the comparison of [n] bytes that ignores ASCII case. *)
Variable memcasecmp : list ascii -> list ascii -> nat -> Z.

Definition EqualsIgnoreCase (piece1 piece2 : string_view) : bool :=
  (length piece1 =? length piece2)%nat &&
  (0 =? memcasecmp piece1 piece2 (length piece1)).

Definition StartsWithIgnoreCase (text prefix : string_view) : option bool :=
  if (length prefix <=? length text)%nat then
    match substr 0 (Some (length prefix)) text with
    | Some t => Some (EqualsIgnoreCase t prefix)
    | None => None
    end
  else Some false.

Definition EndsWithIgnoreCase (text suffix : string_view) : option bool :=
  if (length suffix <=? length text)%nat then
    match substr (length text - length suffix) None text with
    | Some t => Some (EqualsIgnoreCase t suffix)
    | None => None
    end
  else Some false.

End IgnoreCase.

(** ** strip.h

    A function that changes [*str] returns the new view beside its result. *)

Definition ConsumePrefix (str expected : string_view)
  : option (bool * string_view) :=
  match StartsWith str expected with
  | Some true =>
      match remove_prefix (length expected) str with
      | Some str' => Some (true, str')
      | None => None
      end
  | Some false => Some (false, str)
  | None => None
  end.

Definition ConsumeSuffix (str expected : string_view)
  : option (bool * string_view) :=
  match EndsWith str expected with
  | Some true =>
      match remove_suffix (length expected) str with
      | Some str' => Some (true, str')
      | None => None
      end
  | Some false => Some (false, str)
  | None => None
  end.

Definition StripPrefix (str prefix : string_view) : option string_view :=
  match StartsWith str prefix with
  | Some true => remove_prefix (length prefix) str
  | Some false => Some str
  | None => None
  end.

Definition StripSuffix (str suffix : string_view) : option string_view :=
  match EndsWith str suffix with
  | Some true => remove_suffix (length suffix) str
  | Some false => Some str
  | None => None
  end.

(** [ReplaceCharacter(str, len, remove, replace_with)]: the loop walks [str]
    up to [str + len]; [str] is the memory from the pointer on, and [None] is
    a walk past its end. The result is that memory after the call. *)
Fixpoint ReplaceCharacter (str : list ascii) (len : nat)
    (remove replace_with : ascii) {struct len} : option (list ascii) :=
  match len with
  | O => Some str
  | S len' =>
      match str with
      | [] => None
      | c :: str' =>
          match ReplaceCharacter str' len' remove replace_with with
          | Some r =>
              Some ((if Ascii.eqb c remove then replace_with else c) :: r)
          | None => None
          end
      end
  end.

(** [SkipLeadingWhitespace(str)] for a NUL-terminated [str]: the string at
    the returned pointer. [ascii_isspace] belongs to ascii_ctype.h, which is
    not among the sources, and is a parameter. The loop reads the terminator
    when it gets there, and past it ([None]) should the terminator count as
    white space. *)
Fixpoint SkipLeadingWhitespace (ascii_isspace : ascii -> bool) (str : cstring)
  : option cstring :=
  match str with
  | [] => if ascii_isspace NUL then None else Some []
  | c :: str' =>
      if ascii_isspace c then SkipLeadingWhitespace ascii_isspace str'
      else Some str
  end.

(** What [ReplaceCharacter] does to one character. *)
Definition replaced (remove replace_with c : ascii) : ascii :=
  if Ascii.eqb c remove then replace_with else c.

(** White space as in the C locale, space and the characters 9 to 13: a
    sample value for the parameter of [SkipLeadingWhitespace]. *)
Definition c_isspace (c : ascii) : bool :=
  let n := N_of_ascii c in (n =? 32)%N || ((9 <=? n)%N && (n <=? 13)%N).

(** ** str_join.h *)

(** The loop of [StrJoin], from the values of [joined] and [first] at its
    start. *)
Fixpoint StrJoin_loop (strs : list (list ascii)) (delim : cstring)
    (joined : list ascii) (first : bool) : list ascii :=
  match strs with
  | [] => joined
  | s :: strs' =>
      let joined := if negb first then joined ++ delim else joined in
      StrJoin_loop strs' delim (joined ++ s) false
  end.

Definition StrJoin (strs : list (list ascii)) (delim : cstring) : list ascii :=
  StrJoin_loop strs delim [] true.

(** * Properties *)

(** ** Basename *)

Lemma Basename_eq (fname : cstring) (offset : Z) :
  Basename fname offset =
  match Basename_cond fname offset with
  | Some true => Some (ptr_add fname offset)
  | Some false => Basename fname (offset - 1)
  | None => None
  end.
Proof.
  funelim (Basename fname offset); try rewrite <- Heqcall;
    match goal with E : Basename_cond _ _ = _ |- _ => rewrite E end;
    reflexivity.
Qed.

Lemma char_at_nth_error (fname : cstring) (k : nat) :
  (k < length fname)%nat -> char_at fname (Z.of_nat k) = nth_error fname k.
Proof.
  intros Hk. unfold char_at.
  destruct (Z.ltb_spec (Z.of_nat k) 0); [lia|].
  destruct (Z.ltb_spec (Z.of_nat k) (Z.of_nat (length fname))); [|lia].
  now rewrite Nat2Z.id.
Qed.

Lemma Basename_cond_succ (fname : cstring) (k : nat) (c : ascii) :
  nth_error fname k = Some c ->
  Basename_cond fname (Z.of_nat (S k)) = Some (is_separator c).
Proof.
  intros Hc. unfold Basename_cond.
  destruct (Z.eqb_spec (Z.of_nat (S k)) 0); [lia|].
  replace (Z.of_nat (S k) - 1) with (Z.of_nat k) by lia.
  rewrite char_at_nth_error, Hc; [reflexivity|].
  apply nth_error_Some. congruence.
Qed.

(** Scanning down from [k], [Basename] stops at some [j]: nothing between
    [j] and [k] is a separator, and [j] is the start of the array or just
    after a separator. *)
Lemma Basename_scan (fname : cstring) (k : nat) :
  (k <= length fname)%nat ->
  exists j : nat,
    (j <= k)%nat /\
    Basename fname (Z.of_nat k) = Some (skipn j fname) /\
    (forall i c, (j <= i < k)%nat -> nth_error fname i = Some c ->
                 is_separator c = false) /\
    (j = 0%nat \/
     exists c, nth_error fname (j - 1) = Some c /\ is_separator c = true).
Proof.
  induction k as [|k IH]; intros Hk.
  - exists 0%nat. rewrite Basename_eq. cbn. repeat split; auto. lia.
  - destruct (nth_error fname k) as [c|] eqn:Hc.
    2:{ apply nth_error_None in Hc. lia. }
    rewrite Basename_eq, (Basename_cond_succ _ _ _ Hc).
    destruct (is_separator c) eqn:Hsep.
    + exists (S k). unfold ptr_add. rewrite Nat2Z.id.
      repeat split; auto; [lia|].
      right. exists c. now rewrite Nat.sub_1_r.
    + replace (Z.of_nat (S k) - 1) with (Z.of_nat k) by lia.
      destruct IH as (j & Hj & Hb & Hno & Hstart); [lia|].
      exists j. repeat split; auto.
      intros i c' Hi Hc'.
      destruct (Nat.eq_dec i k) as [->|]; [congruence|].
      apply (Hno i c'); auto. lia.
Qed.

Lemma firstn_snoc_nth_error {A} (l : list A) (n : nat) (x : A) :
  nth_error l n = Some x -> firstn (S n) l = firstn n l ++ [x].
Proof.
  revert l. induction n as [|n IH]; intros [|y l] H; try discriminate.
  - now inversion H.
  - cbn. f_equal. now apply IH.
Qed.

Lemma Basename_split (fname : cstring) :
  exists dir base : cstring,
    fname = dir ++ base /\
    Basename fname (sizeof_minus_1 fname) = Some base /\
    existsb is_separator base = false /\
    (dir = [] \/
     exists dir' c, dir = dir' ++ [c] /\ is_separator c = true).
Proof.
  destruct (Basename_scan fname (length fname)) as (j & Hj & Hb & Hno & Hstart);
    [lia|].
  exists (firstn j fname), (skipn j fname). repeat split; auto.
  - now rewrite firstn_skipn.
  - destruct (existsb is_separator (skipn j fname)) eqn:E; [|reflexivity].
    apply existsb_exists in E. destruct E as (c & Hin & Hsep).
    apply In_nth_error in Hin. destruct Hin as (i & Hi).
    rewrite nth_error_skipn in Hi.
    rewrite (Hno (j + i)%nat c) in Hsep; [discriminate| |exact Hi].
    split; [lia|]. apply nth_error_Some. congruence.
  - destruct Hstart as [->|(c & Hc & Hsep)]; [now left|].
    destruct j as [|j]; [now left|]. right.
    rewrite Nat.sub_1_r in Hc. cbn [Nat.pred] in Hc.
    exists (firstn j fname), c. split; [|exact Hsep].
    now apply firstn_snoc_nth_error.
Qed.

Lemma Basename_no_separator (fname : cstring) :
  existsb is_separator fname = false ->
  Basename fname (sizeof_minus_1 fname) = Some fname.
Proof.
  intros Hno.
  destruct (Basename_split fname) as (dir & b & Hsplit & Hb & _ & Hdir).
  destruct Hdir as [->|(dir' & c & -> & Hsep)].
  - now rewrite Hb, Hsplit.
  - rewrite Hsplit, !existsb_app in Hno. cbn in Hno.
    rewrite Hsep, orb_true_r in Hno. discriminate.
Qed.

(** C7. Called with a string and its length, [Basename] returns the part of
    the string after its last ['/'] or ['\'], and the whole string when it
    has neither: the string splits into [dir ++ base], where [base] is the
    result and holds no separator, and [dir] is empty or ends with a
    separator. The four examples of the specification are included. *)
Theorem Basename_after_last_separator :
  (forall fname : cstring,
     exists dir base : cstring,
       fname = dir ++ base /\
       Basename fname (sizeof_minus_1 fname) = Some base /\
       existsb is_separator base = false /\
       (dir = [] \/
        exists dir' c, dir = dir' ++ [c] /\ is_separator c = true)) /\
  (forall fname : cstring,
     existsb is_separator fname = false ->
     Basename fname (sizeof_minus_1 fname) = Some fname) /\
  Basename (lit "a/b/c.cc") (sizeof_minus_1 (lit "a/b/c.cc")) = Some (lit "c.cc") /\
  Basename (lit "c.cc") (sizeof_minus_1 (lit "c.cc")) = Some (lit "c.cc") /\
  Basename (lit "a\b\c.cc") (sizeof_minus_1 (lit "a\b\c.cc")) = Some (lit "c.cc") /\
  Basename (lit "") (sizeof_minus_1 (lit "")) = Some (lit "").
Proof.
  split; [exact Basename_split|].
  split; [exact Basename_no_separator|].
  repeat split; reflexivity.
Qed.

Lemma Basename_after_last_separator_witness :
  existsb is_separator (lit "raw_logging.h") = false /\
  Basename (lit "raw_logging.h") (sizeof_minus_1 (lit "raw_logging.h"))
  = Some (lit "raw_logging.h").
Proof.
  split; [reflexivity|].
  apply (proj1 (proj2 Basename_after_last_separator)). reflexivity.
Defined.

Lemma Basename_cond_false (fname : cstring) (offset : Z) :
  Basename_cond fname offset = Some false ->
  0 < offset <= sizeof_minus_1 fname + 1.
Proof.
  unfold Basename_cond, char_at, sizeof_minus_1.
  destruct (Z.eqb_spec offset 0); [discriminate|].
  destruct (Z.ltb_spec (offset - 1) 0); [discriminate|].
  destruct (Z.ltb_spec (offset - 1) (Z.of_nat (length fname))); [lia|].
  destruct (Z.eqb_spec (offset - 1) (Z.of_nat (length fname))); [lia|].
  discriminate.
Qed.

Lemma Basename_calls_enough (fname : cstring) (bound : nat) :
  forall offset : Z,
    offset <= Z.of_nat bound ->
    Basename_calls (S bound) fname offset = Some (Basename fname offset).
Proof.
  induction bound as [|bound IH]; intros offset Hle;
    cbn [Basename_calls]; rewrite (Basename_eq fname offset);
    destruct (Basename_cond fname offset) as [[|]|] eqn:Hcond;
    try reflexivity; apply Basename_cond_false in Hcond.
  - lia.
  - apply IH. lia.
Qed.

(** C9. For [0 <= offset <= length of fname], a recursive call of [Basename]
    is made at [offset - 1], which is smaller than [offset] and still in
    that range, and the recursion ends with a result after at most
    [offset + 1] calls. *)
Theorem Basename_terminates (fname : cstring) (offset : Z) :
  0 <= offset <= sizeof_minus_1 fname ->
  (Basename_cond fname offset = Some false ->
   0 <= offset - 1 < offset /\ offset - 1 <= sizeof_minus_1 fname) /\
  exists r : cstring,
    Basename_calls (S (Z.to_nat offset)) fname offset = Some (Some r) /\
    Basename fname offset = Some r.
Proof.
  intros Hrange. split.
  - intros Hcond. apply Basename_cond_false in Hcond. lia.
  - destruct (Basename_scan fname (Z.to_nat offset)) as (j & _ & Hb & _).
    { unfold sizeof_minus_1 in Hrange. lia. }
    rewrite Z2Nat.id in Hb by lia.
    exists (skipn j fname). split; [|exact Hb].
    rewrite Basename_calls_enough by lia. now rewrite Hb.
Qed.

Lemma Basename_terminates_witness :
  0 <= 8 <= sizeof_minus_1 (lit "a/b/c.cc") /\
  exists r : cstring,
    Basename_calls (S (Z.to_nat 8)) (lit "a/b/c.cc") 8 = Some (Some r) /\
    Basename (lit "a/b/c.cc") 8 = Some r.
Proof.
  assert (H : 0 <= 8 <= sizeof_minus_1 (lit "a/b/c.cc")) by (cbn; lia).
  split; [exact H|].
  exact (proj2 (Basename_terminates (lit "a/b/c.cc") 8 H)).
Defined.

(** ** Severities *)

Lemma NormalizeLogSeverity_cases (s : LogSeverity) :
  (s < kInfo /\ NormalizeLogSeverity s = kInfo) \/
  (kInfo <= s <= kFatal /\ NormalizeLogSeverity s = s) \/
  (kFatal < s /\ NormalizeLogSeverity s = kError).
Proof.
  unfold NormalizeLogSeverity.
  destruct (Z.ltb_spec s kInfo); [now left|right].
  destruct (Z.gtb_spec s kFatal); [right|left]; split; auto; lia.
Qed.

Lemma canonical_range (s : LogSeverity) :
  In s LogSeverities <-> kInfo <= s <= kFatal.
Proof.
  unfold LogSeverities, kInfo, kWarning, kError, kFatal. cbn [In]. lia.
Qed.

Lemma NormalizeLogSeverity_In (s : LogSeverity) :
  In (NormalizeLogSeverity s) LogSeverities.
Proof.
  apply canonical_range.
  destruct (NormalizeLogSeverity_cases s) as [[_ ->]|[[? ->]|[_ ->]]];
    unfold kInfo, kError, kFatal in *; lia.
Qed.

(** C2. [NormalizeLogSeverity], on any integer, gives one of the four
    severities; an integer below [kInfo] gives [kInfo]; an integer above
    [kFatal] gives [kError], hence not [kFatal]; [-1] gives [kInfo] and [99]
    gives [kError]. *)
Theorem NormalizeLogSeverity_canonical :
  (forall s : Z, In (NormalizeLogSeverity_int s) LogSeverities) /\
  (forall s : Z, s < kInfo -> NormalizeLogSeverity_int s = kInfo) /\
  (forall s : Z,
     s > kFatal ->
     NormalizeLogSeverity_int s = kError /\ NormalizeLogSeverity_int s <> kFatal) /\
  NormalizeLogSeverity_int (-1) = kInfo /\
  NormalizeLogSeverity_int 99 = kError.
Proof.
  unfold NormalizeLogSeverity_int.
  repeat split; try reflexivity; try intros s Hs; try intros s;
    try apply canonical_range;
    destruct (NormalizeLogSeverity_cases s) as [[? ->]|[[? ->]|[? ->]]];
    unfold kInfo, kError, kFatal in *; lia.
Qed.

Lemma NormalizeLogSeverity_canonical_witness :
  (-7 < kInfo /\ NormalizeLogSeverity_int (-7) = kInfo) /\
  (4 > kFatal /\ NormalizeLogSeverity_int 4 = kError /\
   NormalizeLogSeverity_int 4 <> kFatal).
Proof.
  destruct NormalizeLogSeverity_canonical as (_ & Hlow & Hhigh & _).
  split.
  - split; [reflexivity|]. apply Hlow. reflexivity.
  - split; [reflexivity|]. apply Hhigh. reflexivity.
Defined.

(** C10. [NormalizeLogSeverity] applied twice is [NormalizeLogSeverity]
    applied once, and it leaves each of the four severities as it is. *)
Theorem NormalizeLogSeverity_idempotent :
  (forall s : LogSeverity,
     NormalizeLogSeverity (NormalizeLogSeverity s) = NormalizeLogSeverity s) /\
  (forall s : LogSeverity, In s LogSeverities -> NormalizeLogSeverity s = s).
Proof.
  assert (Hfix : forall s, In s LogSeverities -> NormalizeLogSeverity s = s).
  { intros s Hs. apply canonical_range in Hs.
    destruct (NormalizeLogSeverity_cases s) as [[? ->]|[[? ->]|[? ->]]]; lia. }
  split; [|exact Hfix].
  intros s. apply Hfix, NormalizeLogSeverity_In.
Qed.

Lemma NormalizeLogSeverity_idempotent_witness :
  In kFatal LogSeverities /\ NormalizeLogSeverity kFatal = kFatal.
Proof.
  assert (H : In kFatal LogSeverities) by (cbn; tauto).
  split; [exact H|].
  exact (proj2 NormalizeLogSeverity_idempotent kFatal H).
Defined.

(** C8. [LogSeverityName] gives ["INFO"], ["WARNING"], ["ERROR"] and
    ["FATAL"] on [kInfo], [kWarning], [kError] and [kFatal], and ["UNKNOWN"]
    on every other value, 7 among them; it has a value on every input, one
    of these five strings. *)
Theorem LogSeverityName_values :
  LogSeverityName kInfo = lit "INFO" /\
  LogSeverityName kWarning = lit "WARNING" /\
  LogSeverityName kError = lit "ERROR" /\
  LogSeverityName kFatal = lit "FATAL" /\
  (forall s : LogSeverity,
     ~ In s LogSeverities -> LogSeverityName s = lit "UNKNOWN") /\
  LogSeverityName 7 = lit "UNKNOWN" /\
  (forall s : LogSeverity, In (LogSeverityName s) severity_names).
Proof.
  assert (Hother : forall s, ~ In s LogSeverities ->
                             LogSeverityName s = lit "UNKNOWN").
  { intros s Hs. rewrite canonical_range in Hs. unfold LogSeverityName.
    unfold kInfo, kWarning, kError, kFatal in *.
    repeat match goal with
           | |- context [?a =? ?b] => destruct (Z.eqb_spec a b); [lia|]
           end.
    reflexivity. }
  repeat split; try reflexivity; [exact Hother|].
  intros s. unfold LogSeverityName, severity_names.
  repeat match goal with
         | |- context [?a =? ?b] => destruct (Z.eqb_spec a b)
         end; cbn [In]; tauto.
Qed.

Lemma LogSeverityName_values_witness :
  ~ In (-1) LogSeverities /\ LogSeverityName (-1) = lit "UNKNOWN".
Proof.
  assert (H : ~ In (-1) LogSeverities).
  { intros [H|[H|[H|[H|[]]]]]; discriminate H. }
  split; [exact H|].
  destruct LogSeverityName_values as (_ & _ & _ & _ & Hother & _).
  exact (Hother (-1) H).
Defined.

(** C4. [kLogDebugFatal] is [kFatal] when the library is built without
    [NDEBUG] and [kError] when it is built with it. The token [DFATAL]
    resolves to it in every translation unit, whatever that unit's own
    [NDEBUG], and in every state of the process: logging at [DFATAL] is
    logging at [FATAL] in the first case and at [ERROR] in the second. *)
Theorem kLogDebugFatal_resolution (base : BuildConfig) :
  kLogDebugFatal base = (if NDEBUG base then kError else kFatal) /\
  XBSL_RAW_LOGGING_INTERNAL base DFATAL = kLogDebugFatal base /\
  forall (env : Environment) (tu : BuildConfig) (FILE : cstring) (LINE : Z)
         (format : cstring) (args : list Arg) (p : Process),
    XBSL_RAW_LOG base env tu FILE LINE DFATAL format args p =
    XBSL_RAW_LOG base env tu FILE LINE (if NDEBUG base then ERROR else FATAL)
      format args p.
Proof.
  repeat split.
  intros. unfold XBSL_RAW_LOG, XBSL_RAW_LOGGING_INTERNAL, kLogDebugFatal.
  destruct (NDEBUG base); reflexivity.
Qed.

(** ** The raw logger *)

Section RawLoggingProperties.

Variable base : BuildConfig.
Variable env : Environment.

Lemma continues_record (e : Event) (p : Process) :
  continues p [e] (record_event e p).
Proof. repeat split. Qed.

Lemma continues_trans (p q r : Process) (t u : list Event) :
  continues p t q -> continues q u r -> continues p (t ++ u) r.
Proof.
  intros (Hl & Ha & Ht) (Hl' & Ha' & Ht'). repeat split; try congruence.
  now rewrite Ht', Ht, app_assoc.
Qed.

Lemma write_retry_continues (budget : nat) :
  forall (s : cstring) (p : Process),
    exists t, continues p t (write_retry env budget s p).
Proof.
  induction budget as [|budget IH]; intros s p.
  - exists []. repeat split. cbn. now rewrite app_nil_r.
  - destruct s as [|c s]; cbn [write_retry].
    + exists []. repeat split. now rewrite app_nil_r.
    + destruct (sys_write env (trace p) (c :: s)) as [n|].
      * match goal with |- context [write_retry env budget ?s' ?p'] =>
          destruct (IH s' p') as (t & Ht) end.
        eexists. eapply continues_trans; [apply continues_record|exact Ht].
      * exists []. repeat split. now rewrite app_nil_r.
Qed.

(** A call of [RawLog] ends the process exactly when the normalized severity
    is [kFatal], after the abort hook, if there is one; either way the hooks
    stay as they were and the trace grows, starting with the call itself. *)
Lemma RawLog_outcome (severity : LogSeverity) (file : cstring) (line : Z)
    (format : cstring) (args : list Arg) (p : Process) :
  exists (q : Process) (t : list Event) (buffer : cstring) (prefix_end : nat),
    continues p (EvRawLog severity file line format args :: t) q /\
    RawLog env severity file line format args p =
      if NormalizeLogSeverity severity =? kFatal
      then Terminated
             match abort_hook p with
             | Some fn =>
                 record_event (EvAbortHook fn file line buffer prefix_end) q
             | None => q
             end
      else Returned q.
Proof.
  unfold RawLog.
  set (p0 := record_event (EvRawLog severity file line format args) p).
  assert (H0 : continues p [EvRawLog severity file line format args] p0)
    by apply continues_record.
  clearbody p0.
  set (hooked := match log_prefix_hook p0 with Some _ => _ | None => _ end).
  assert (H1 : exists t1, continues p0 t1 (snd hooked)).
  { subst hooked. destruct (log_prefix_hook p0) as [fn|].
    - destruct (prefix_hook_code env fn _ _ _ _ _) as [emit prefix].
      eexists. apply continues_record.
    - exists []. repeat split. cbn. now rewrite app_nil_r. }
  destruct hooked as [[emit prefix] p1]. cbn [snd] in H1.
  destruct H1 as (t1 & H1).
  set (buffer := firstn (kLogBufSize env) (prefix ++ format_text env format args)).
  set (p2 := if emit || _ then _ else p1).
  assert (H2 : exists t2, continues p1 t2 p2).
  { subst p2. destruct (emit || _).
    - apply write_retry_continues.
    - exists []. repeat split. now rewrite app_nil_r. }
  destruct H2 as (t2 & H2). clearbody p2.
  pose proof (continues_trans _ _ _ _ _ H0 (continues_trans _ _ _ _ _ H1 H2))
    as H.
  exists p2, (t1 ++ t2), buffer, (length prefix). split; [exact H|].
  destruct H as (_ & -> & _). reflexivity.
Qed.

Lemma RawLog_continues (severity : LogSeverity) (file : cstring) (line : Z)
    (format : cstring) (args : list Arg) (p : Process) :
  exists t : list Event,
    continues p (EvRawLog severity file line format args :: t)
      (process_of (RawLog env severity file line format args p)).
Proof.
  destruct (RawLog_outcome severity file line format args p)
    as (q & t & buffer & n & Hq & ->).
  destruct (NormalizeLogSeverity severity =? kFatal); cbn [process_of].
  - destruct (abort_hook p) as [fn|]; [|now exists t].
    exists (t ++ [EvAbortHook fn file line buffer n]).
    exact (continues_trans _ _ _ _ _ Hq (continues_record _ _)).
  - now exists t.
Qed.

Lemma RawLog_terminated (severity : LogSeverity) (file : cstring) (line : Z)
    (format : cstring) (args : list Arg) (p : Process) :
  terminated (RawLog env severity file line format args p) =
  (NormalizeLogSeverity severity =? kFatal).
Proof.
  destruct (RawLog_outcome severity file line format args p)
    as (q & t & buffer & n & _ & ->).
  now destruct (NormalizeLogSeverity severity =? kFatal).
Qed.

(** A call of [RawLog] leaves its mark: it never returns the process as it
    found it. *)
Lemma RawLog_not_silent (severity : LogSeverity) (file : cstring) (line : Z)
    (format : cstring) (args : list Arg) (p : Process) :
  RawLog env severity file line format args p <> Returned p.
Proof.
  intros Heq.
  destruct (RawLog_continues severity file line format args p)
    as (t & _ & _ & Ht).
  rewrite Heq in Ht. cbn [process_of] in Ht.
  apply (f_equal (@length Event)) in Ht.
  rewrite length_app in Ht. cbn [length] in Ht. lia.
Qed.

(** C1. A call of the raw logger at [kFatal], through either overload, ends
    the process, whatever the hooks and the environment are: also when a
    prefix hook is registered and answers that the message is to be
    suppressed, and also when an abort hook is registered, in which case the
    process ends after the hook has been called and has returned. *)
Theorem RawLog_fatal_terminates (file : cstring) (line : Z)
    (format : cstring) (args : list Arg) (p : Process) :
  (exists q : Process,
     RawLog env kFatal file line format args p = Terminated q /\
     RawLog_int env 3 file line format args p = Terminated q) /\
  (forall fn : LogPrefixHook,
     log_prefix_hook p = Some fn ->
     fst (prefix_hook_code env fn
            (trace p ++ [EvRawLog kFatal file line format args])
            kFatal file line (kLogBufSize env)) = false ->
     terminated (RawLog env kFatal file line format args p) = true) /\
  (forall fn : AbortHook,
     abort_hook p = Some fn ->
     exists (q : Process) (buffer : cstring) (prefix_end : nat),
       RawLog env kFatal file line format args p =
       Terminated (record_event (EvAbortHook fn file line buffer prefix_end) q)).
Proof.
  destruct (RawLog_outcome kFatal file line format args p)
    as (q & t & buffer & n & _ & Heq).
  change (NormalizeLogSeverity kFatal =? kFatal) with true in Heq.
  cbv iota in Heq. repeat split.
  - eexists. split; exact Heq.
  - intros. now rewrite RawLog_terminated.
  - intros fn Hfn. rewrite Hfn in Heq. now exists q, buffer, n.
Qed.

Lemma RegisterLogPrefixHook_keeps (fn : LogPrefixHook) (p : Process) :
  abort_hook (process_of (RegisterLogPrefixHook env fn p)) = abort_hook p /\
  forall old : LogPrefixHook,
    log_prefix_hook p = Some old ->
    log_prefix_hook (process_of (RegisterLogPrefixHook env fn p)) = Some old.
Proof.
  unfold RegisterLogPrefixHook.
  destruct (log_prefix_hook p) as [old'|] eqn:Hp.
  - destruct (old' =? fn).
    + split; [reflexivity|]. intros old [= <-]. exact Hp.
    + destruct (RawLog_continues kFatal (conflict_file env) (conflict_line env)
                  (conflict_format env) [] p) as (t & Hl & Ha & _).
      split; [exact Ha|]. intros old Hold. now rewrite Hl, Hp.
  - split; [reflexivity|discriminate].
Qed.

Lemma RegisterAbortHook_keeps (fn : AbortHook) (p : Process) :
  log_prefix_hook (process_of (RegisterAbortHook env fn p)) = log_prefix_hook p /\
  forall old : AbortHook,
    abort_hook p = Some old ->
    abort_hook (process_of (RegisterAbortHook env fn p)) = Some old.
Proof.
  unfold RegisterAbortHook.
  destruct (abort_hook p) as [old'|] eqn:Hp.
  - destruct (old' =? fn).
    + split; [reflexivity|]. intros old [= <-]. exact Hp.
    + destruct (RawLog_continues kFatal (conflict_file env) (conflict_line env)
                  (conflict_format env) [] p) as (t & Hl & Ha & _).
      split; [exact Hl|]. intros old Hold. now rewrite Ha, Hp.
  - split; [reflexivity|discriminate].
Qed.

(** No call changes a slot that is set. *)
Lemma do_call_keeps (c : Call) (p : Process) :
  (forall fn, log_prefix_hook p = Some fn ->
              log_prefix_hook (process_of (do_call env c p)) = Some fn) /\
  (forall fn, abort_hook p = Some fn ->
              abort_hook (process_of (do_call env c p)) = Some fn).
Proof.
  destruct c as [severity file line format args|fn'|fn']; cbn [do_call].
  - destruct (RawLog_continues severity file line format args p)
      as (t & Hl & Ha & _).
    split; intros fn Hfn; congruence.
  - destruct (RegisterLogPrefixHook_keeps fn' p) as (Ha & Hl).
    split; intros fn Hfn; [now apply Hl|congruence].
  - destruct (RegisterAbortHook_keeps fn' p) as (Hl & Ha).
    split; intros fn Hfn; [congruence|now apply Ha].
Qed.

Lemma run_keeps (cs : list Call) :
  forall p : Process,
    (forall fn, log_prefix_hook p = Some fn ->
                log_prefix_hook (process_of (run env cs p)) = Some fn) /\
    (forall fn, abort_hook p = Some fn ->
                abort_hook (process_of (run env cs p)) = Some fn).
Proof.
  induction cs as [|c cs IH]; intros p; cbn [run].
  - now split.
  - destruct (do_call_keeps c p) as (Hl & Ha).
    destruct (do_call env c p) as [q|q]; cbn [process_of] in *.
    + destruct (IH q) as (Hl' & Ha'). split; intros fn Hfn; auto.
    + split; intros fn Hfn; auto.
Qed.

(** A registration into an empty slot sets it, and nothing else. *)
Lemma RegisterLogPrefixHook_first (fn : LogPrefixHook) (p : Process) :
  log_prefix_hook p = None ->
  exists q : Process,
    RegisterLogPrefixHook env fn p = Returned q /\
    log_prefix_hook q = Some fn /\
    abort_hook q = abort_hook p /\
    trace q = trace p.
Proof.
  intros Hp. unfold RegisterLogPrefixHook. rewrite Hp.
  exists (set_log_prefix_hook fn p). repeat split.
Qed.

Lemma RegisterAbortHook_first (fn : AbortHook) (p : Process) :
  abort_hook p = None ->
  exists q : Process,
    RegisterAbortHook env fn p = Returned q /\
    abort_hook q = Some fn /\
    log_prefix_hook q = log_prefix_hook p /\
    trace q = trace p.
Proof.
  intros Hp. unfold RegisterAbortHook. rewrite Hp.
  exists (set_abort_hook fn p). repeat split.
Qed.

(** Two registrations, one after the other, into an empty slot: the second
    returns when it brings the value of the first, and ends the process when
    it brings another; the slot holds the value of the first. *)
Lemma RegisterLogPrefixHook_twice (fn fn' : LogPrefixHook) (p : Process) :
  log_prefix_hook p = None ->
  log_prefix_hook
    (process_of (run env [CallRegisterLogPrefixHook fn;
                          CallRegisterLogPrefixHook fn'] p)) = Some fn /\
  terminated (run env [CallRegisterLogPrefixHook fn;
                       CallRegisterLogPrefixHook fn'] p)
  = negb (fn =? fn').
Proof.
  intros Hp. destruct (RegisterLogPrefixHook_first fn p Hp)
    as (q & Hq & Hset & _ & _).
  cbn [run do_call]. rewrite Hq.
  destruct (RegisterLogPrefixHook_keeps fn' q) as (_ & Hkeep).
  specialize (Hkeep fn Hset).
  unfold RegisterLogPrefixHook in *. rewrite Hset in *.
  destruct (fn =? fn').
  - split; [exact Hkeep|reflexivity].
  - pose proof (RawLog_terminated kFatal (conflict_file env)
                  (conflict_line env) (conflict_format env) [] q) as Ht.
    destruct (RawLog env kFatal (conflict_file env) (conflict_line env)
                (conflict_format env) [] q) as [r|r];
      [discriminate Ht|].
    split; [exact Hkeep|reflexivity].
Qed.

Lemma RegisterAbortHook_twice (fn fn' : AbortHook) (p : Process) :
  abort_hook p = None ->
  abort_hook
    (process_of (run env [CallRegisterAbortHook fn;
                          CallRegisterAbortHook fn'] p)) = Some fn /\
  terminated (run env [CallRegisterAbortHook fn;
                       CallRegisterAbortHook fn'] p)
  = negb (fn =? fn').
Proof.
  intros Hp. destruct (RegisterAbortHook_first fn p Hp)
    as (q & Hq & Hset & _ & _).
  cbn [run do_call]. rewrite Hq.
  destruct (RegisterAbortHook_keeps fn' q) as (_ & Hkeep).
  specialize (Hkeep fn Hset).
  unfold RegisterAbortHook in *. rewrite Hset in *.
  destruct (fn =? fn').
  - split; [exact Hkeep|reflexivity].
  - pose proof (RawLog_terminated kFatal (conflict_file env)
                  (conflict_line env) (conflict_format env) [] q) as Ht.
    destruct (RawLog env kFatal (conflict_file env) (conflict_line env)
                (conflict_format env) [] q) as [r|r];
      [discriminate Ht|].
    split; [exact Hkeep|reflexivity].
Qed.

(** C3. For the prefix hook and for the abort hook alike: a registration
    into an empty slot returns and sets the slot to the value it brings,
    changing nothing else; of two registrations into an empty slot, the
    second returns when it brings the same value and ends the process when it
    brings another, and the slot holds the first value either way;
    registering a value that has just been registered returns and changes
    nothing; registering a value other than the one the slot holds is a call
    of [RawLog] at [kFatal], which ends the process; and a slot that holds a
    value holds that value after any further calls, so each slot is set at
    most once. *)
Theorem hook_registration_once :
  (forall (fn : LogPrefixHook) (p : Process),
     log_prefix_hook p = None ->
     exists q : Process,
       RegisterLogPrefixHook env fn p = Returned q /\
       log_prefix_hook q = Some fn /\
       abort_hook q = abort_hook p /\
       trace q = trace p) /\
  (forall (fn : AbortHook) (p : Process),
     abort_hook p = None ->
     exists q : Process,
       RegisterAbortHook env fn p = Returned q /\
       abort_hook q = Some fn /\
       log_prefix_hook q = log_prefix_hook p /\
       trace q = trace p) /\
  (forall (fn fn' : LogPrefixHook) (p : Process),
     log_prefix_hook p = None ->
     log_prefix_hook
       (process_of (run env [CallRegisterLogPrefixHook fn;
                             CallRegisterLogPrefixHook fn'] p)) = Some fn /\
     terminated (run env [CallRegisterLogPrefixHook fn;
                          CallRegisterLogPrefixHook fn'] p)
     = negb (fn =? fn')) /\
  (forall (fn fn' : AbortHook) (p : Process),
     abort_hook p = None ->
     abort_hook
       (process_of (run env [CallRegisterAbortHook fn;
                             CallRegisterAbortHook fn'] p)) = Some fn /\
     terminated (run env [CallRegisterAbortHook fn;
                          CallRegisterAbortHook fn'] p)
     = negb (fn =? fn')) /\
  (forall (fn : LogPrefixHook) (p q : Process),
     RegisterLogPrefixHook env fn p = Returned q ->
     RegisterLogPrefixHook env fn q = Returned q) /\
  (forall (fn : AbortHook) (p q : Process),
     RegisterAbortHook env fn p = Returned q ->
     RegisterAbortHook env fn q = Returned q) /\
  (forall (old fn : LogPrefixHook) (p : Process),
     log_prefix_hook p = Some old -> old <> fn ->
     RegisterLogPrefixHook env fn p =
       RawLog env kFatal (conflict_file env) (conflict_line env)
         (conflict_format env) [] p /\
     terminated (RegisterLogPrefixHook env fn p) = true) /\
  (forall (old fn : AbortHook) (p : Process),
     abort_hook p = Some old -> old <> fn ->
     RegisterAbortHook env fn p =
       RawLog env kFatal (conflict_file env) (conflict_line env)
         (conflict_format env) [] p /\
     terminated (RegisterAbortHook env fn p) = true) /\
  (forall (cs : list Call) (p : Process) (fn : LogPrefixHook),
     log_prefix_hook p = Some fn ->
     log_prefix_hook (process_of (run env cs p)) = Some fn) /\
  (forall (cs : list Call) (p : Process) (fn : AbortHook),
     abort_hook p = Some fn ->
     abort_hook (process_of (run env cs p)) = Some fn).
Proof.
  split; [exact RegisterLogPrefixHook_first|].
  split; [exact RegisterAbortHook_first|].
  split; [exact RegisterLogPrefixHook_twice|].
  split; [exact RegisterAbortHook_twice|].
  repeat match goal with |- _ /\ _ => split end.
  - intros fn p q. unfold RegisterLogPrefixHook.
    destruct (log_prefix_hook p) as [old|] eqn:Hp.
    + destruct (Z.eqb_spec old fn) as [->|Hne].
      * intros [= <-]. now rewrite Hp, Z.eqb_refl.
      * intros Heq.
        pose proof (RawLog_terminated kFatal (conflict_file env)
                      (conflict_line env) (conflict_format env) [] p) as Ht.
        rewrite Heq in Ht. discriminate Ht.
    + intros [= <-]. cbn. now rewrite Z.eqb_refl.
  - intros fn p q. unfold RegisterAbortHook.
    destruct (abort_hook p) as [old|] eqn:Hp.
    + destruct (Z.eqb_spec old fn) as [->|Hne].
      * intros [= <-]. now rewrite Hp, Z.eqb_refl.
      * intros Heq.
        pose proof (RawLog_terminated kFatal (conflict_file env)
                      (conflict_line env) (conflict_format env) [] p) as Ht.
        rewrite Heq in Ht. discriminate Ht.
    + intros [= <-]. cbn. now rewrite Z.eqb_refl.
  - intros old fn p Hp Hne. unfold RegisterLogPrefixHook. rewrite Hp.
    destruct (Z.eqb_spec old fn); [contradiction|].
    split; [reflexivity|]. now rewrite RawLog_terminated.
  - intros old fn p Hp Hne. unfold RegisterAbortHook. rewrite Hp.
    destruct (Z.eqb_spec old fn); [contradiction|].
    split; [reflexivity|]. now rewrite RawLog_terminated.
  - intros cs p fn. apply (run_keeps cs p).
  - intros cs p fn. apply (run_keeps cs p).
Qed.

Lemma Basename_defined (FILE : cstring) :
  exists basename : cstring,
    Basename FILE (sizeof_minus_1 FILE) = Some basename.
Proof.
  destruct (Basename_split FILE) as (dir & b & _ & Hb & _). now exists b.
Qed.

(** C6. In a translation unit where [STRIP_LOG] is defined and not zero,
    [XBSL_RAW_LOG] with a severity other than [kFatal] makes no call of
    [RawLog] and returns with the process as it was. In every translation
    unit, stripped or not, [XBSL_RAW_LOG] with a severity that resolves to
    [kFatal] is the call of [RawLog] at [kFatal] with the basename of the
    file, and that call ends the process. A call of [RawLog] never returns
    the process as it was. *)
Theorem XBSL_RAW_LOG_strip (tu : BuildConfig) (FILE : cstring) (LINE : Z)
    (severity : SeverityToken) (format : cstring) (args : list Arg)
    (p : Process) :
  exists basename : cstring,
    Basename FILE (sizeof_minus_1 FILE) = Some basename /\
    (strip_log tu = true ->
     XBSL_RAW_LOGGING_INTERNAL base severity <> kFatal ->
     XBSL_RAW_LOG base env tu FILE LINE severity format args p
     = Some (Returned p)) /\
    (XBSL_RAW_LOGGING_INTERNAL base severity = kFatal ->
     XBSL_RAW_LOG base env tu FILE LINE severity format args p
     = Some (RawLog env kFatal basename LINE format args p) /\
     terminated (RawLog env kFatal basename LINE format args p) = true) /\
    (forall (s : LogSeverity) (file : cstring) (line : Z) (fmt : cstring)
            (a : list Arg),
       RawLog env s file line fmt a p <> Returned p).
Proof.
  destruct (Basename_defined FILE) as (basename & Hb).
  exists basename. split; [exact Hb|].
  unfold XBSL_RAW_LOG. rewrite Hb. repeat split.
  - intros -> Hne.
    destruct (Z.eqb_spec (XBSL_RAW_LOGGING_INTERNAL base severity) kFatal);
      [contradiction|reflexivity].
  - match goal with E : _ = kFatal |- _ => rewrite E, Z.eqb_refl end.
    now destruct (strip_log tu).
  - now rewrite RawLog_terminated.
  - intros. apply RawLog_not_silent.
Qed.

(** C5. [XBSL_RAW_CHECK] with a condition that holds returns with the process
    as it was: no call of [RawLog] is made, so nothing is formatted, no hook
    is called and nothing is written. With a condition that does not hold,
    in every translation unit, it is the call of [RawLog] at [kFatal] with
    the basename of the file, the format ["Check %s failed: %s"], the text of
    the condition and the message, and that call ends the process. So the
    process is ended exactly when the condition does not hold. *)
Theorem XBSL_RAW_CHECK_fatal_iff_false (tu : BuildConfig) (FILE : cstring)
    (LINE : Z) (condition : bool) (condition_text message : cstring)
    (p : Process) :
  (condition = true ->
   XBSL_RAW_CHECK base env tu FILE LINE condition condition_text message p
   = Some (Returned p)) /\
  (condition = false ->
   exists basename : cstring,
     Basename FILE (sizeof_minus_1 FILE) = Some basename /\
     XBSL_RAW_CHECK base env tu FILE LINE condition condition_text message p
     = Some (RawLog env kFatal basename LINE (lit "Check %s failed: %s")
               [ArgStr condition_text; ArgStr message] p) /\
     terminated (RawLog env kFatal basename LINE (lit "Check %s failed: %s")
                   [ArgStr condition_text; ArgStr message] p) = true) /\
  ((exists q : Process,
      XBSL_RAW_CHECK base env tu FILE LINE condition condition_text message p
      = Some (Terminated q)) <->
   condition = false).
Proof.
  assert (Hfalse :
    exists basename : cstring,
      Basename FILE (sizeof_minus_1 FILE) = Some basename /\
      XBSL_RAW_CHECK base env tu FILE LINE false condition_text message p
      = Some (RawLog env kFatal basename LINE (lit "Check %s failed: %s")
                [ArgStr condition_text; ArgStr message] p) /\
      terminated (RawLog env kFatal basename LINE (lit "Check %s failed: %s")
                    [ArgStr condition_text; ArgStr message] p) = true).
  { destruct (Basename_defined FILE) as (basename & Hb).
    exists basename. split; [exact Hb|].
    unfold XBSL_RAW_CHECK, XBSL_RAW_LOG. cbn [negb]. rewrite Hb.
    cbn [XBSL_RAW_LOGGING_INTERNAL]. rewrite Z.eqb_refl.
    split; [now destruct (strip_log tu)|now rewrite RawLog_terminated]. }
  repeat split.
  - now intros ->.
  - now intros ->.
  - intros (q & Hq). destruct condition; [discriminate Hq|reflexivity].
  - intros ->. destruct Hfalse as (basename & _ & -> & Ht).
    destruct (RawLog env kFatal basename LINE _ _ p) as [q|q];
      [discriminate Ht|now exists q].
Qed.

End RawLoggingProperties.

(** ** The theorems at the sample configuration *)

(** A fatal message in a process whose prefix hook suppresses everything:
    the hook is called, the buffer is written all the same, the abort hook
    is called, and the process ends. *)
Example RawLog_fatal_suppressed_run :
  RawLog sample_env kFatal (lit "a.cc") 42 (lit "ab") [] hooked =
  Terminated
    {| log_prefix_hook := Some 4096;
       abort_hook := Some 8192;
       trace := [EvRawLog kFatal (lit "a.cc") 42 (lit "ab") [];
                 EvPrefixHook 4096 kFatal (lit "a.cc") 42 3000;
                 EvWrite (lit "[hook] ab");
                 EvAbortHook 8192 (lit "a.cc") 42 (lit "[hook] ab") 7] |}.
Proof. reflexivity. Qed.

Lemma RawLog_fatal_terminates_witness :
  log_prefix_hook hooked = Some 4096 /\
  fst (prefix_hook_code sample_env 4096
         (trace hooked ++ [EvRawLog kFatal (lit "a.cc") 42 (lit "ab") []])
         kFatal (lit "a.cc") 42 (kLogBufSize sample_env)) = false /\
  terminated (RawLog sample_env kFatal (lit "a.cc") 42 (lit "ab") [] hooked)
  = true.
Proof.
  split; [reflexivity|]. split; [reflexivity|].
  apply (proj1 (proj2 (RawLog_fatal_terminates sample_env (lit "a.cc") 42
                         (lit "ab") [] hooked)) 4096); reflexivity.
Defined.

Lemma hook_registration_once_witness :
  log_prefix_hook hooked = Some 4096 /\
  4096 <> 4100 /\
  terminated (RegisterLogPrefixHook sample_env 4100 hooked) = true /\
  abort_hook initial = None /\
  (exists q : Process,
     RegisterAbortHook sample_env 8192 initial = Returned q /\
     abort_hook q = Some 8192 /\
     log_prefix_hook q = log_prefix_hook initial /\
     trace q = trace initial) /\
  terminated (run sample_env [CallRegisterAbortHook 8192;
                              CallRegisterAbortHook 8200] initial)
  = negb (8192 =? 8200) /\
  RegisterAbortHook sample_env 8192 initial
  = Returned (set_abort_hook 8192 initial) /\
  RegisterAbortHook sample_env 8192 (set_abort_hook 8192 initial)
  = Returned (set_abort_hook 8192 initial).
Proof.
  destruct (hook_registration_once sample_env)
    as (_ & Hfirst & _ & Htwice & _ & Hsame & Hconflict & _).
  assert (Hset : log_prefix_hook hooked = Some 4096) by reflexivity.
  assert (Hne : 4096 <> 4100) by lia.
  assert (Hempty : abort_hook initial = None) by reflexivity.
  assert (Hreg : exists q : Process,
             RegisterAbortHook sample_env 8192 initial = Returned q /\
             abort_hook q = Some 8192 /\
             log_prefix_hook q = log_prefix_hook initial /\
             trace q = trace initial)
    by exact (Hfirst 8192 initial Hempty).
  assert (Hret : RegisterAbortHook sample_env 8192 initial
                 = Returned (set_abort_hook 8192 initial)) by reflexivity.
  split; [exact Hset|]. split; [exact Hne|].
  split; [exact (proj2 (Hconflict 4096 4100 hooked Hset Hne))|].
  split; [exact Hempty|]. split; [exact Hreg|].
  split; [exact (proj2 (Htwice 8192 8200 initial Hempty))|].
  split; [exact Hret|].
  exact (Hsame 8192 initial _ Hret).
Defined.

Lemma XBSL_RAW_CHECK_fatal_iff_false_witness :
  exists basename : cstring,
    Basename (lit "s2/s2cell.cc") (sizeof_minus_1 (lit "s2/s2cell.cc"))
    = Some basename /\
    XBSL_RAW_CHECK release_build sample_env stripped_build
      (lit "s2/s2cell.cc") 42 false (lit "level >= 0") (lit "bad level") hooked
    = Some (RawLog sample_env kFatal basename 42 (lit "Check %s failed: %s")
              [ArgStr (lit "level >= 0"); ArgStr (lit "bad level")] hooked) /\
    terminated
      (RawLog sample_env kFatal basename 42 (lit "Check %s failed: %s")
         [ArgStr (lit "level >= 0"); ArgStr (lit "bad level")] hooked) = true.
Proof.
  apply (proj1 (proj2 (XBSL_RAW_CHECK_fatal_iff_false release_build sample_env
                         stripped_build (lit "s2/s2cell.cc") 42 false
                         (lit "level >= 0") (lit "bad level") hooked))).
  reflexivity.
Defined.

Lemma XBSL_RAW_LOG_strip_witness :
  strip_log stripped_build = true /\
  XBSL_RAW_LOGGING_INTERNAL release_build DFATAL <> kFatal /\
  XBSL_RAW_LOG release_build sample_env stripped_build (lit "s2/s2cell.cc") 42
    DFATAL (lit "ab") [] hooked
  = Some (Returned hooked).
Proof.
  assert (Hstrip : strip_log stripped_build = true) by reflexivity.
  assert (Hne : XBSL_RAW_LOGGING_INTERNAL release_build DFATAL <> kFatal)
    by (intros H; discriminate H).
  split; [exact Hstrip|]. split; [exact Hne|].
  destruct (XBSL_RAW_LOG_strip release_build sample_env stripped_build
              (lit "s2/s2cell.cc") 42 DFATAL (lit "ab") [] hooked)
    as (basename & _ & Hsilent & _).
  exact (Hsilent Hstrip Hne).
Defined.

(** * Further properties *)

(** ** Severities *)

(** X1. [NormalizeLogSeverity] gives [kFatal] for [kFatal] and for nothing
    else: no other value is raised to the severity that ends the process. *)
Theorem NormalizeLogSeverity_fatal_only (s : LogSeverity) :
  NormalizeLogSeverity s = kFatal <-> s = kFatal.
Proof.
  destruct (NormalizeLogSeverity_cases s) as [[? ->]|[[? ->]|[? ->]]];
    unfold kInfo, kError, kFatal in *; lia.
Qed.

(** X2. The values [NormalizeLogSeverity] leaves as they are are exactly the
    four severities of [LogSeverities]. *)
Theorem NormalizeLogSeverity_fixed_points (s : LogSeverity) :
  NormalizeLogSeverity s = s <-> In s LogSeverities.
Proof.
  rewrite canonical_range.
  destruct (NormalizeLogSeverity_cases s) as [[? ->]|[[? ->]|[? ->]]];
    unfold kInfo, kError, kFatal in *; lia.
Qed.

(** X3. Up to [kFatal], [NormalizeLogSeverity] keeps the order of its
    arguments. *)
Theorem NormalizeLogSeverity_monotone_to_fatal (a b : LogSeverity) :
  a <= b -> b <= kFatal -> NormalizeLogSeverity a <= NormalizeLogSeverity b.
Proof.
  intros Hab Hb.
  destruct (NormalizeLogSeverity_cases a) as [[? ->]|[[? ->]|[? ->]]];
    destruct (NormalizeLogSeverity_cases b) as [[? ->]|[[? ->]|[? ->]]];
    unfold kInfo, kError, kFatal in *; lia.
Qed.

Lemma NormalizeLogSeverity_monotone_to_fatal_witness :
  -4 <= 2 /\ 2 <= kFatal /\
  NormalizeLogSeverity (-4) <= NormalizeLogSeverity 2.
Proof.
  assert (H1 : -4 <= 2) by lia.
  assert (H2 : 2 <= kFatal) by (unfold kFatal; lia).
  split; [exact H1|]. split; [exact H2|].
  exact (NormalizeLogSeverity_monotone_to_fatal (-4) 2 H1 H2).
Defined.

Lemma LogSeverityName_cases (s : LogSeverity) :
  (s = kInfo /\ LogSeverityName s = lit "INFO") \/
  (s = kWarning /\ LogSeverityName s = lit "WARNING") \/
  (s = kError /\ LogSeverityName s = lit "ERROR") \/
  (s = kFatal /\ LogSeverityName s = lit "FATAL") \/
  (~ In s LogSeverities /\ LogSeverityName s = lit "UNKNOWN").
Proof.
  unfold LogSeverityName.
  destruct (Z.eqb_spec s kInfo); [tauto|].
  destruct (Z.eqb_spec s kWarning); [tauto|].
  destruct (Z.eqb_spec s kError); [tauto|].
  destruct (Z.eqb_spec s kFatal); [tauto|].
  do 4 right. split; [|reflexivity]. cbn [LogSeverities In]. intuition.
Qed.

(** X4. A name that [LogSeverityName] gives to one of the four severities is
    given to no other value: from the name the severity can be told. *)
Theorem LogSeverityName_injective (s t : LogSeverity) :
  In s LogSeverities ->
  LogSeverityName s = LogSeverityName t ->
  s = t.
Proof.
  intros Hs Heq.
  destruct (LogSeverityName_cases s) as [[-> Es]|[[-> Es]|[[-> Es]|[[-> Es]|[Hn _]]]]];
    [| | | |contradiction];
    destruct (LogSeverityName_cases t) as [[-> Et]|[[-> Et]|[[-> Et]|[[-> Et]|[_ Et]]]]];
    try reflexivity; rewrite Es, Et in Heq; cbv in Heq; discriminate Heq.
Qed.

Lemma LogSeverityName_injective_witness :
  In kError LogSeverities /\
  LogSeverityName kError = LogSeverityName 2 /\
  kError = 2.
Proof.
  assert (H1 : In kError LogSeverities) by (cbn; tauto).
  assert (H2 : LogSeverityName kError = LogSeverityName 2) by reflexivity.
  split; [exact H1|]. split; [exact H2|].
  exact (LogSeverityName_injective kError 2 H1 H2).
Defined.

(** X5. A normalized severity always has a proper name: [LogSeverityName]
    after [NormalizeLogSeverity] never gives ["UNKNOWN"]. *)
Theorem LogSeverityName_Normalize_known (s : LogSeverity) :
  In (LogSeverityName (NormalizeLogSeverity s))
     [lit "INFO"; lit "WARNING"; lit "ERROR"; lit "FATAL"] /\
  LogSeverityName (NormalizeLogSeverity s) <> lit "UNKNOWN".
Proof.
  pose proof (NormalizeLogSeverity_In s) as Hin.
  destruct (LogSeverityName_cases (NormalizeLogSeverity s))
    as [[_ ->]|[[_ ->]|[[_ ->]|[[_ ->]|[Hn _]]]]]; [| | | |contradiction];
    (split; [cbn [In]; tauto|intros H; cbv in H; discriminate H]).
Qed.

(** ** Basename *)

Lemma skipn_app_le {A} (n : nat) (l1 l2 : list A) :
  (n <= length l1)%nat -> skipn n (l1 ++ l2) = skipn n l1 ++ l2.
Proof.
  intros Hn. rewrite skipn_app.
  replace (n - length l1)%nat with 0%nat by lia. reflexivity.
Qed.

(** Scanning down from [k] only looks at the first [k] characters. *)
Lemma Basename_scan_app (pre rest : cstring) (k : nat) :
  (k <= length pre)%nat ->
  exists j : nat,
    (j <= k)%nat /\
    Basename (pre ++ rest) (Z.of_nat k) = Some (skipn j pre ++ rest) /\
    Basename pre (Z.of_nat k) = Some (skipn j pre).
Proof.
  induction k as [|k IH]; intros Hk.
  - exists 0%nat. rewrite (Basename_eq (pre ++ rest)), (Basename_eq pre).
    cbn [Z.of_nat Basename_cond Z.eqb ptr_add Z.to_nat skipn]. auto.
  - destruct (nth_error pre k) as [c|] eqn:Hc.
    2:{ apply nth_error_None in Hc. lia. }
    assert (Hc' : nth_error (pre ++ rest) k = Some c).
    { rewrite nth_error_app1; [exact Hc|lia]. }
    rewrite (Basename_eq (pre ++ rest)), (Basename_eq pre).
    rewrite (Basename_cond_succ _ _ _ Hc), (Basename_cond_succ _ _ _ Hc').
    destruct (is_separator c).
    + exists (S k). unfold ptr_add. rewrite Nat2Z.id.
      rewrite skipn_app_le by lia. auto.
    + replace (Z.of_nat (S k) - 1) with (Z.of_nat k) by lia.
      destruct IH as (j & Hj & H1 & H2); [lia|].
      exists j. auto.
Qed.

(** X6. [Basename] applied to its own result gives that result again. *)
Theorem Basename_idempotent (fname : cstring) :
  exists base : cstring,
    Basename fname (sizeof_minus_1 fname) = Some base /\
    Basename base (sizeof_minus_1 base) = Some base.
Proof.
  destruct (Basename_split fname) as (dir & b & _ & Hb & Hno & _).
  exists b. split; [exact Hb|]. now apply Basename_no_separator.
Qed.

(** X7. A file name without separators, put after a directory and a
    separator, is what [Basename] gives back. *)
Theorem Basename_join (dir name : cstring) (sep : ascii) :
  is_separator sep = true ->
  existsb is_separator name = false ->
  Basename (dir ++ sep :: name) (sizeof_minus_1 (dir ++ sep :: name))
  = Some name.
Proof.
  intros Hsep Hname.
  replace (dir ++ sep :: name) with ((dir ++ [sep]) ++ name)
    by (now rewrite <- app_assoc).
  set (pre := dir ++ [sep]).
  destruct (Basename_split (pre ++ name))
    as (d & b & Hsplit & Hb & Hno & Hd).
  rewrite Hb. f_equal. clear Hb.
  (* [b] is a suffix of [pre ++ name] without separator, after a separator *)
  assert (Hlen : length (pre ++ name) = (length d + length b)%nat)
    by (now rewrite Hsplit at 1; rewrite length_app).
  rewrite length_app in Hlen.
  destruct (Nat.lt_trichotomy (length b) (length name)) as [Hlt|[Heq|Hgt]].
  - (* [d] reaches into [name], and ends with a separator of [name] *)
    exfalso.
    destruct Hd as [->|(d' & c & -> & Hc)].
    { cbn in Hlen. lia. }
    assert (Hin : In c name).
    { assert (Hnth : nth_error (pre ++ name) (length d') = Some c).
      { rewrite Hsplit, <- app_assoc, nth_error_app2 by lia.
        now rewrite Nat.sub_diag. }
      rewrite length_app in Hlen. cbn in Hlen.
      rewrite nth_error_app2 in Hnth by lia.
      now apply nth_error_In in Hnth. }
    assert (Hex : existsb is_separator name = true)
      by (apply existsb_exists; now exists c).
    congruence.
  - apply (f_equal (skipn (length pre))) in Hsplit.
    rewrite skipn_app, skipn_all, Nat.sub_diag in Hsplit. cbn in Hsplit.
    rewrite Hsplit, skipn_app.
    replace (length pre) with (length d) by lia.
    now rewrite skipn_all, Nat.sub_diag.
  - (* [b] reaches back over [sep] *)
    exfalso.
    assert (Hnth : nth_error (pre ++ name) (length dir) = Some sep).
    { unfold pre. rewrite <- app_assoc, nth_error_app2 by lia.
      now rewrite Nat.sub_diag. }
    unfold pre in Hlen. rewrite length_app in Hlen. cbn in Hlen.
    rewrite Hsplit, nth_error_app2 in Hnth by lia.
    apply nth_error_In in Hnth.
    assert (Hex : existsb is_separator b = true)
      by (apply existsb_exists; now exists sep).
    congruence.
Qed.

Lemma Basename_join_witness :
  is_separator "/"%char = true /\
  existsb is_separator (lit "s2cell.cc") = false /\
  Basename (lit "src/s2" ++ "/"%char :: lit "s2cell.cc")
    (sizeof_minus_1 (lit "src/s2" ++ "/"%char :: lit "s2cell.cc"))
  = Some (lit "s2cell.cc").
Proof.
  assert (H1 : is_separator "/"%char = true) by reflexivity.
  assert (H2 : existsb is_separator (lit "s2cell.cc") = false) by reflexivity.
  split; [exact H1|]. split; [exact H2|].
  exact (Basename_join (lit "src/s2") (lit "s2cell.cc") "/"%char H1 H2).
Defined.

(** X8. The result of [Basename] is empty exactly when the string is empty
    or ends with a separator. *)
Theorem Basename_empty_iff (fname : cstring) :
  exists base : cstring,
    Basename fname (sizeof_minus_1 fname) = Some base /\
    (base = [] <->
     fname = [] \/
     exists (pre : cstring) (c : ascii),
       fname = pre ++ [c] /\ is_separator c = true).
Proof.
  destruct (Basename_split fname) as (d & b & Hsplit & Hb & Hno & Hd).
  exists b. split; [exact Hb|]. split.
  - intros ->. rewrite app_nil_r in Hsplit. clear Hb Hno. subst d.
    destruct Hd as [->|(d' & c & -> & Hc)]; [left; reflexivity|].
    right. exists d', c. split; [reflexivity|exact Hc].
  - clear Hb. intros [->|(pre & c & -> & Hc)].
    + symmetry in Hsplit. apply app_eq_nil in Hsplit. apply Hsplit.
    + destruct b as [|x0 b0]; [reflexivity|]. exfalso.
      destruct (@exists_last _ (x0 :: b0)) as (b' & x & E); [discriminate|].
      rewrite E in Hsplit, Hno.
      rewrite app_assoc in Hsplit. apply app_inj_tail in Hsplit.
      destruct Hsplit as [_ <-]. rewrite existsb_app in Hno. cbn in Hno.
      rewrite Hc, orb_true_r in Hno. discriminate Hno.
Qed.

(** X9. Called with an offset inside the string, [Basename] works on the
    characters before the offset and returns what it finds there with the
    rest of the string after it. *)
Theorem Basename_offset (pre rest : cstring) :
  Basename (pre ++ rest) (sizeof_minus_1 pre)
  = option_map (fun base => base ++ rest) (Basename pre (sizeof_minus_1 pre)).
Proof.
  destruct (Basename_scan_app pre rest (length pre)) as (j & _ & H1 & H2);
    [lia|].
  unfold sizeof_minus_1. now rewrite H1, H2.
Qed.

(** ** The macros of raw_logging.h *)

Section MacroProperties.

Variable base : BuildConfig.
Variable env : Environment.

Lemma XBSL_RAW_LOGGING_INTERNAL_In (severity : SeverityToken) :
  In (XBSL_RAW_LOGGING_INTERNAL base severity) LogSeverities.
Proof.
  destruct severity; cbn [XBSL_RAW_LOGGING_INTERNAL];
    try (cbn; tauto).
  - unfold kLogDebugFatal. destruct (NDEBUG base); cbn; tauto.
  - apply NormalizeLogSeverity_In.
Qed.

Lemma NormalizeLogSeverity_resolved (severity : SeverityToken) :
  NormalizeLogSeverity (XBSL_RAW_LOGGING_INTERNAL base severity)
  = XBSL_RAW_LOGGING_INTERNAL base severity.
Proof.
  pose proof (XBSL_RAW_LOGGING_INTERNAL_In severity) as Hin.
  apply canonical_range in Hin.
  destruct (NormalizeLogSeverity_cases (XBSL_RAW_LOGGING_INTERNAL base severity))
    as [[? ->]|[[? ->]|[? ->]]]; lia.
Qed.

(** What an expansion of [XBSL_RAW_LOG] does: nothing when stripped and not
    fatal, and otherwise a call of [RawLog] with the resolved severity and the
    basename of the file. *)
Lemma XBSL_RAW_LOG_outcome (tu : BuildConfig) (FILE : cstring) (LINE : Z)
    (severity : SeverityToken) (format : cstring) (args : list Arg)
    (p : Process) :
  exists dir basename : cstring,
    FILE = dir ++ basename /\
    Basename FILE (sizeof_minus_1 FILE) = Some basename /\
    existsb is_separator basename = false /\
    (dir = [] \/
     exists dir' c, dir = dir' ++ [c] /\ is_separator c = true) /\
    XBSL_RAW_LOG base env tu FILE LINE severity format args p =
    Some (if strip_log tu &&
             negb (XBSL_RAW_LOGGING_INTERNAL base severity =? kFatal)
          then Returned p
          else RawLog env (XBSL_RAW_LOGGING_INTERNAL base severity) basename
                 LINE format args p).
Proof.
  destruct (Basename_split FILE) as (dir & b & Hsplit & Hb & Hno & Hdir).
  exists dir, b. split; [exact Hsplit|]. split; [exact Hb|].
  split; [exact Hno|]. split; [exact Hdir|].
  unfold XBSL_RAW_LOG. rewrite Hb. clear Hb.
  destruct (strip_log tu); [|reflexivity].
  destruct (Z.eqb_spec (XBSL_RAW_LOGGING_INTERNAL base severity) kFatal)
    as [->|]; reflexivity.
Qed.

Lemma XBSL_RAW_LOG_terminated (tu : BuildConfig) (FILE : cstring) (LINE : Z)
    (severity : SeverityToken) (format : cstring) (args : list Arg)
    (p : Process) :
  exists o : Outcome,
    XBSL_RAW_LOG base env tu FILE LINE severity format args p = Some o /\
    terminated o = (XBSL_RAW_LOGGING_INTERNAL base severity =? kFatal).
Proof.
  destruct (XBSL_RAW_LOG_outcome tu FILE LINE severity format args p)
    as (dir & b & _ & _ & _ & _ & ->).
  eexists. split; [reflexivity|].
  destruct (strip_log tu &&
            negb (XBSL_RAW_LOGGING_INTERNAL base severity =? kFatal)) eqn:E.
  - apply andb_prop in E. destruct E as [_ E].
    apply negb_true_iff in E. now rewrite E.
  - now rewrite RawLog_terminated, NormalizeLogSeverity_resolved.
Qed.

Lemma XBSL_RAW_CHECK_terminated (tu : BuildConfig) (FILE : cstring)
    (LINE : Z) (condition : bool) (condition_text message : cstring)
    (p : Process) :
  exists o : Outcome,
    XBSL_RAW_CHECK base env tu FILE LINE condition condition_text message p
    = Some o /\
    terminated o = negb condition /\
    (condition = true -> o = Returned p).
Proof.
  unfold XBSL_RAW_CHECK. destruct condition; cbn [negb].
  - exists (Returned p). auto.
  - destruct (XBSL_RAW_LOG_terminated tu FILE LINE FATAL
                (lit "Check %s failed: %s")
                [ArgStr condition_text; ArgStr message] p) as (o & -> & Ht).
    exists o. split; [reflexivity|]. split; [exact Ht|discriminate].
Qed.

(** X10. The file name that [XBSL_RAW_LOG] hands to [RawLog] is what
    [Basename] gives for [__FILE__] and its length, the part of [__FILE__]
    after its last separator: [__FILE__] is a directory part, empty or ending
    with a separator, followed by that name, which holds no separator. When
    the unit is stripped and the severity is not [kFatal], no call is made at
    all. *)
Theorem XBSL_RAW_LOG_passes_basename (tu : BuildConfig) (FILE : cstring)
    (LINE : Z) (severity : SeverityToken) (format : cstring)
    (args : list Arg) (p : Process) :
  exists dir basename : cstring,
    FILE = dir ++ basename /\
    Basename FILE (sizeof_minus_1 FILE) = Some basename /\
    existsb is_separator basename = false /\
    (dir = [] \/
     exists dir' c, dir = dir' ++ [c] /\ is_separator c = true) /\
    XBSL_RAW_LOG base env tu FILE LINE severity format args p =
    Some (if strip_log tu &&
             negb (XBSL_RAW_LOGGING_INTERNAL base severity =? kFatal)
          then Returned p
          else RawLog env (XBSL_RAW_LOGGING_INTERNAL base severity) basename
                 LINE format args p).
Proof. apply XBSL_RAW_LOG_outcome. Qed.

(** X11. Whether [XBSL_RAW_LOG] ends the process depends on the severity
    alone: it does exactly when the token resolves to [kFatal], in a stripped
    unit as in an unstripped one, so stripping never changes whether a
    statement is fatal. *)
Theorem XBSL_RAW_LOG_fatal_iff (tu tu' : BuildConfig) (FILE : cstring)
    (LINE : Z) (severity : SeverityToken) (format : cstring)
    (args : list Arg) (p : Process) :
  exists o o' : Outcome,
    XBSL_RAW_LOG base env tu FILE LINE severity format args p = Some o /\
    XBSL_RAW_LOG base env tu' FILE LINE severity format args p = Some o' /\
    terminated o = (XBSL_RAW_LOGGING_INTERNAL base severity =? kFatal) /\
    terminated o' = terminated o.
Proof.
  destruct (XBSL_RAW_LOG_terminated tu FILE LINE severity format args p)
    as (o & Ho & Ht).
  destruct (XBSL_RAW_LOG_terminated tu' FILE LINE severity format args p)
    as (o' & Ho' & Ht').
  exists o, o'. repeat split; congruence.
Qed.



(** X13. [RAW_DLOG] in a unit compiled with [NDEBUG] does nothing, whatever
    the severity; without [NDEBUG] it ends the process exactly when the
    severity resolves to [kFatal]. *)
Theorem RAW_DLOG_outcome (tu : BuildConfig) (FILE : cstring) (LINE : Z)
    (severity : SeverityToken) (format : cstring) (args : list Arg)
    (p : Process) :
  exists o : Outcome,
    RAW_DLOG base env tu FILE LINE severity format args p = Some o /\
    (NDEBUG tu = true -> o = Returned p) /\
    terminated o =
      negb (NDEBUG tu) && (XBSL_RAW_LOGGING_INTERNAL base severity =? kFatal).
Proof.
  destruct (XBSL_RAW_LOG_terminated tu FILE LINE severity format args p)
    as (o & Ho & Ht).
  unfold RAW_DLOG. rewrite Ho. destruct (NDEBUG tu).
  - exists (Returned p). auto.
  - exists o. split; [reflexivity|]. split; [discriminate|exact Ht].
Qed.

(** X14. [RAW_DCHECK] in a unit compiled with [NDEBUG] does nothing, even
    for a condition that fails; without [NDEBUG] it ends the process exactly
    when the condition fails. *)
Theorem RAW_DCHECK_outcome (tu : BuildConfig) (FILE : cstring) (LINE : Z)
    (condition : bool) (condition_text message : cstring) (p : Process) :
  exists o : Outcome,
    RAW_DCHECK base env tu FILE LINE condition condition_text message p
    = Some o /\
    (NDEBUG tu = true -> o = Returned p) /\
    terminated o = negb (NDEBUG tu) && negb condition.
Proof.
  destruct (XBSL_RAW_CHECK_terminated tu FILE LINE condition condition_text
              message p) as (o & Ho & Ht & _).
  unfold RAW_DCHECK. rewrite Ho. destruct (NDEBUG tu).
  - exists (Returned p). auto.
  - exists o. split; [reflexivity|]. split; [discriminate|exact Ht].
Qed.

End MacroProperties.

(** ** match.h *)

Lemma N_of_ascii_inj (a b : ascii) : N_of_ascii a = N_of_ascii b -> a = b.
Proof.
  intros H. rewrite <- (ascii_N_embedding a), <- (ascii_N_embedding b).
  now rewrite H.
Qed.

Lemma bytes_compare_zero (s1 s2 : list ascii) :
  length s1 = length s2 ->
  ((0 =? bytes_compare s1 s2) = true <-> s1 = s2).
Proof.
  revert s2. induction s1 as [|c1 s1 IH]; intros [|c2 s2] Hlen;
    try discriminate Hlen.
  - cbn. tauto.
  - cbn [bytes_compare].
    destruct (N.compare_spec (N_of_ascii c1) (N_of_ascii c2)) as [Heq|Hlt|Hgt].
    + apply N_of_ascii_inj in Heq. subst c2.
      rewrite IH by (cbn in Hlen; lia).
      split; [now intros ->|now intros [= ->]].
    + split; [discriminate|]. intros [= -> _]. lia.
    + split; [discriminate|]. intros [= -> _]. lia.
Qed.

Lemma StartsWith_eq (text prefix : string_view) :
  StartsWith text prefix =
  Some (if (length prefix <=? length text)%nat
        then 0 =? bytes_compare (firstn (length prefix) text) prefix
        else false).
Proof.
  unfold StartsWith. destruct prefix as [|c prefix]; [reflexivity|].
  cbn [sv_empty]. unfold memcmp.
  destruct (Nat.leb_spec (length (c :: prefix)) (length text)) as [Hle|Hgt];
    [|reflexivity].
  rewrite Nat.leb_refl. cbn [andb]. now rewrite firstn_all.
Qed.

Lemma EndsWith_eq (text suffix : string_view) :
  EndsWith text suffix =
  Some (if (length suffix <=? length text)%nat
        then 0 =? bytes_compare (skipn (length text - length suffix) text)
                    suffix
        else false).
Proof.
  unfold EndsWith. destruct suffix as [|c suffix].
  - cbn [sv_empty length]. rewrite Nat.sub_0_r, skipn_all. reflexivity.
  - cbn [sv_empty]. unfold memcmp.
    destruct (Nat.leb_spec (length (c :: suffix)) (length text)) as [Hle|Hgt];
      [|reflexivity].
    rewrite length_skipn.
    replace (length text - (length text - length (c :: suffix)))%nat
      with (length (c :: suffix)) by lia.
    rewrite Nat.leb_refl. cbn [andb].
    rewrite firstn_all, firstn_all2 by (rewrite length_skipn; lia).
    reflexivity.
Qed.

Lemma StartsWith_true (text prefix : string_view) :
  StartsWith text prefix = Some true <->
  exists rest, text = prefix ++ rest.
Proof.
  rewrite StartsWith_eq. split.
  - intros [= H].
    destruct (Nat.leb_spec (length prefix) (length text)); [|discriminate].
    apply bytes_compare_zero in H; [|rewrite length_firstn; lia].
    exists (skipn (length prefix) text).
    pose proof (firstn_skipn (length prefix) text) as Hfs.
    rewrite H in Hfs. now symmetry.
  - intros (rest & ->). rewrite length_app.
    destruct (Nat.leb_spec (length prefix) (length prefix + length rest));
      [|lia].
    f_equal. apply bytes_compare_zero.
    + rewrite length_firstn, length_app. lia.
    + now rewrite firstn_app, firstn_all, Nat.sub_diag, app_nil_r.
Qed.

Lemma EndsWith_true (text suffix : string_view) :
  EndsWith text suffix = Some true <->
  exists rest, text = rest ++ suffix.
Proof.
  rewrite EndsWith_eq. split.
  - intros [= H].
    destruct (Nat.leb_spec (length suffix) (length text)); [|discriminate].
    apply bytes_compare_zero in H; [|rewrite length_skipn; lia].
    exists (firstn (length text - length suffix) text).
    pose proof (firstn_skipn (length text - length suffix) text) as Hfs.
    rewrite H in Hfs. now symmetry.
  - intros (rest & ->). rewrite length_app.
    destruct (Nat.leb_spec (length suffix) (length rest + length suffix));
      [|lia].
    f_equal. apply bytes_compare_zero.
    + rewrite length_skipn, length_app. lia.
    + replace (length rest + length suffix - length suffix)%nat
        with (length rest) by lia.
      now rewrite skipn_app, skipn_all, Nat.sub_diag.
Qed.

Lemma option_bool_cases (o : option bool) :
  (exists b, o = Some b) -> o = Some true \/ o = Some false.
Proof. intros ([|] & ->); auto. Qed.

(** X15. [StartsWith] answers for every pair of views, without reading
    outside either, and answers yes exactly when [text] is [prefix] followed
    by something; the empty prefix starts every text. *)
Theorem StartsWith_spec (text prefix : string_view) :
  exists b : bool,
    StartsWith text prefix = Some b /\
    (b = true <-> exists rest, text = prefix ++ rest).
Proof.
  pose proof (StartsWith_true text prefix) as Ht.
  destruct (StartsWith text prefix) as [b|] eqn:E.
  2:{ rewrite StartsWith_eq in E. discriminate E. }
  exists b. split; [reflexivity|].
  rewrite <- Ht. split; [now intros ->|now intros [= ->]].
Qed.

(** X16. [EndsWith] answers for every pair of views, without reading outside
    either, and answers yes exactly when [text] is something followed by
    [suffix]. *)
Theorem EndsWith_spec (text suffix : string_view) :
  exists b : bool,
    EndsWith text suffix = Some b /\
    (b = true <-> exists rest, text = rest ++ suffix).
Proof.
  pose proof (EndsWith_true text suffix) as Ht.
  destruct (EndsWith text suffix) as [b|] eqn:E.
  2:{ rewrite EndsWith_eq in E. discriminate E. }
  exists b. split; [reflexivity|].
  rewrite <- Ht. split; [now intros ->|now intros [= ->]].
Qed.

(** X17. [EndsWith] is [StartsWith] on the reversed views. *)
Theorem EndsWith_rev (text suffix : string_view) :
  EndsWith text suffix = StartsWith (rev text) (rev suffix).
Proof.
  destruct (option_bool_cases (EndsWith text suffix)) as [H|H].
  { rewrite EndsWith_eq. eauto. }
  - rewrite H. symmetry. apply EndsWith_true in H. destruct H as (rest & ->).
    apply StartsWith_true. exists (rev rest). apply rev_app_distr.
  - rewrite H. symmetry.
    destruct (option_bool_cases (StartsWith (rev text) (rev suffix)))
      as [H'|H']; [rewrite StartsWith_eq; eauto| |exact H'].
    apply StartsWith_true in H'. destruct H' as (rest & Hrev).
    assert (Ht : EndsWith text suffix = Some true).
    { apply EndsWith_true. exists (rev rest).
      rewrite <- (rev_involutive text), Hrev, rev_app_distr.
      now rewrite rev_involutive. }
    congruence.
Qed.

(** ** strip.h *)

Lemma remove_prefix_app (prefix rest : string_view) :
  remove_prefix (length prefix) (prefix ++ rest) = Some rest.
Proof.
  unfold remove_prefix. rewrite length_app.
  destruct (Nat.leb_spec (length prefix) (length prefix + length rest));
    [|lia].
  now rewrite skipn_app, skipn_all, Nat.sub_diag.
Qed.

Lemma remove_suffix_app (rest suffix : string_view) :
  remove_suffix (length suffix) (rest ++ suffix) = Some rest.
Proof.
  unfold remove_suffix. rewrite length_app.
  destruct (Nat.leb_spec (length suffix) (length rest + length suffix));
    [|lia].
  replace (length rest + length suffix - length suffix)%nat
    with (length rest) by lia.
  now rewrite firstn_app, firstn_all, Nat.sub_diag, app_nil_r.
Qed.

Lemma StartsWith_false (text prefix : string_view) :
  StartsWith text prefix = Some false <->
  forall rest, text <> prefix ++ rest.
Proof.
  pose proof (StartsWith_true text prefix) as Ht.
  destruct (option_bool_cases (StartsWith text prefix)) as [H|H];
    [rewrite StartsWith_eq; eauto| |]; rewrite H in *.
  - split; [discriminate|]. intros Hno.
    destruct (proj1 Ht eq_refl) as (rest & Hr). now destruct (Hno rest).
  - split; [|reflexivity]. intros _ rest Hr.
    assert (Some false = Some true) by (apply Ht; now exists rest).
    discriminate.
Qed.

Lemma EndsWith_false (text suffix : string_view) :
  EndsWith text suffix = Some false <->
  forall rest, text <> rest ++ suffix.
Proof.
  pose proof (EndsWith_true text suffix) as Ht.
  destruct (option_bool_cases (EndsWith text suffix)) as [H|H];
    [rewrite EndsWith_eq; eauto| |]; rewrite H in *.
  - split; [discriminate|]. intros Hno.
    destruct (proj1 Ht eq_refl) as (rest & Hr). now destruct (Hno rest).
  - split; [|reflexivity]. intros _ rest Hr.
    assert (Some false = Some true) by (apply Ht; now exists rest).
    discriminate.
Qed.

Lemma StripPrefix_app (prefix s : string_view) :
  StripPrefix (prefix ++ s) prefix = Some s.
Proof.
  unfold StripPrefix.
  replace (StartsWith (prefix ++ s) prefix) with (Some true)
    by (symmetry; apply StartsWith_true; now exists s).
  apply remove_prefix_app.
Qed.

Lemma StripSuffix_app (s suffix : string_view) :
  StripSuffix (s ++ suffix) suffix = Some s.
Proof.
  unfold StripSuffix.
  replace (EndsWith (s ++ suffix) suffix) with (Some true)
    by (symmetry; apply EndsWith_true; now exists s).
  apply remove_suffix_app.
Qed.

Lemma StripPrefix_no_match (str prefix : string_view) :
  (forall rest, str <> prefix ++ rest) -> StripPrefix str prefix = Some str.
Proof.
  intros Hno. unfold StripPrefix.
  now rewrite (proj2 (StartsWith_false str prefix) Hno).
Qed.

Lemma StripSuffix_no_match (str suffix : string_view) :
  (forall rest, str <> rest ++ suffix) -> StripSuffix str suffix = Some str.
Proof.
  intros Hno. unfold StripSuffix.
  now rewrite (proj2 (EndsWith_false str suffix) Hno).
Qed.

(** [str] starts with [prefix] or it does not. *)
Lemma prefix_dec (str prefix : string_view) :
  (exists rest, str = prefix ++ rest) \/ (forall rest, str <> prefix ++ rest).
Proof.
  destruct (option_bool_cases (StartsWith str prefix)) as [H|H];
    [rewrite StartsWith_eq; eauto| |].
  - left. now apply StartsWith_true.
  - right. now apply StartsWith_false.
Qed.

Lemma suffix_dec (str suffix : string_view) :
  (exists rest, str = rest ++ suffix) \/ (forall rest, str <> rest ++ suffix).
Proof.
  destruct (option_bool_cases (EndsWith str suffix)) as [H|H];
    [rewrite EndsWith_eq; eauto| |].
  - left. now apply EndsWith_true.
  - right. now apply EndsWith_false.
Qed.

(** X18. [ConsumePrefix] never fails. When it answers yes, the view was
    [expected] followed by the view it leaves; when it answers no, the view
    is left as it was and does not start with [expected]. *)
Theorem ConsumePrefix_spec (str expected : string_view) :
  exists (b : bool) (str' : string_view),
    ConsumePrefix str expected = Some (b, str') /\
    (b = true -> str = expected ++ str') /\
    (b = false -> str' = str /\ forall rest, str <> expected ++ rest).
Proof.
  unfold ConsumePrefix.
  destruct (prefix_dec str expected) as [(rest & ->)|Hno].
  - replace (StartsWith (expected ++ rest) expected) with (Some true)
      by (symmetry; apply StartsWith_true; now exists rest).
    rewrite remove_prefix_app. exists true, rest.
    split; [reflexivity|]. split; [reflexivity|discriminate].
  - rewrite (proj2 (StartsWith_false str expected) Hno).
    exists false, str. split; [reflexivity|]. split; [discriminate|auto].
Qed.

(** X19. [ConsumeSuffix] never fails. When it answers yes, the view was the
    view it leaves followed by [expected]; when it answers no, the view is
    left as it was and does not end with [expected]. *)
Theorem ConsumeSuffix_spec (str expected : string_view) :
  exists (b : bool) (str' : string_view),
    ConsumeSuffix str expected = Some (b, str') /\
    (b = true -> str = str' ++ expected) /\
    (b = false -> str' = str /\ forall rest, str <> rest ++ expected).
Proof.
  unfold ConsumeSuffix.
  destruct (suffix_dec str expected) as [(rest & ->)|Hno].
  - replace (EndsWith (rest ++ expected) expected) with (Some true)
      by (symmetry; apply EndsWith_true; now exists rest).
    rewrite remove_suffix_app. exists true, rest.
    split; [reflexivity|]. split; [reflexivity|discriminate].
  - rewrite (proj2 (EndsWith_false str expected) Hno).
    exists false, str. split; [reflexivity|]. split; [discriminate|auto].
Qed.

(** X20. [StripPrefix] undoes putting the prefix in front, and returns a
    view that does not start with the prefix as it is. *)
Theorem StripPrefix_spec :
  (forall prefix s : string_view, StripPrefix (prefix ++ s) prefix = Some s) /\
  (forall str prefix : string_view,
     (forall rest, str <> prefix ++ rest) ->
     StripPrefix str prefix = Some str).
Proof. split; [exact StripPrefix_app|exact StripPrefix_no_match]. Qed.

(** X21. [StripSuffix] undoes putting the suffix behind, and returns a view
    that does not end with the suffix as it is. *)
Theorem StripSuffix_spec :
  (forall s suffix : string_view, StripSuffix (s ++ suffix) suffix = Some s) /\
  (forall str suffix : string_view,
     (forall rest, str <> rest ++ suffix) ->
     StripSuffix str suffix = Some str).
Proof. split; [exact StripSuffix_app|exact StripSuffix_no_match]. Qed.

Lemma app_eq_length_r {A} (l1 l2 l1' l2' : list A) :
  l1 ++ l2 = l1' ++ l2' -> length l2 = length l2' -> l1 = l1' /\ l2 = l2'.
Proof.
  intros Heq Hlen.
  assert (Hl : length l1 = length l1').
  { apply (f_equal (@length A)) in Heq. rewrite !length_app in Heq. lia. }
  split.
  - apply (f_equal (firstn (length l1))) in Heq.
    rewrite firstn_app, firstn_all, Nat.sub_diag, app_nil_r in Heq.
    rewrite Hl, firstn_app, firstn_all, Nat.sub_diag, app_nil_r in Heq.
    exact Heq.
  - apply (f_equal (skipn (length l1))) in Heq.
    rewrite skipn_app, skipn_all, Nat.sub_diag in Heq.
    rewrite Hl, skipn_app, skipn_all, Nat.sub_diag in Heq.
    exact Heq.
Qed.

(** X22. When the prefix and the suffix fit into the view side by side,
    stripping the prefix and then the suffix gives what stripping the suffix
    and then the prefix gives. *)
Theorem StripPrefix_StripSuffix_commute (str prefix suffix : string_view) :
  (length prefix + length suffix <= length str)%nat ->
  match StripPrefix str prefix with
  | Some r => StripSuffix r suffix
  | None => None
  end =
  match StripSuffix str suffix with
  | Some r => StripPrefix r prefix
  | None => None
  end.
Proof.
  intros Hlen.
  destruct (prefix_dec str prefix) as [(r & ->)|Hnp];
    [destruct (suffix_dec (prefix ++ r) suffix) as [(r' & Hs)|Hns]
    |destruct (suffix_dec str suffix) as [Hs|Hns]].
  - (* both match: the view is prefix, middle, suffix *)
    assert (Hm : exists m, r = m ++ suffix /\ r' = prefix ++ m).
    { rewrite length_app in Hlen.
      exists (firstn (length r - length suffix) r).
      rewrite <- (firstn_skipn (length r - length suffix) r) in Hs at 1.
      rewrite app_assoc in Hs.
      apply app_eq_length_r in Hs; [|rewrite length_skipn; lia].
      destruct Hs as [Hs1 Hs2]. split; [|now symmetry].
      etransitivity; [symmetry; apply (firstn_skipn (length r - length suffix))|].
      f_equal. exact Hs2. }
    destruct Hm as (m & -> & ->).
    rewrite StripPrefix_app, StripSuffix_app.
    rewrite app_assoc, StripSuffix_app. now rewrite StripPrefix_app.
  - rewrite StripPrefix_app, (StripSuffix_no_match _ _ Hns), StripPrefix_app.
    apply StripSuffix_no_match. intros rest ->.
    apply (Hns (prefix ++ rest)). now rewrite app_assoc.
  - destruct Hs as (r' & ->).
    rewrite (StripPrefix_no_match _ _ Hnp), StripSuffix_app.
    symmetry. apply StripPrefix_no_match. intros rest ->.
    apply (Hnp (rest ++ suffix)). now rewrite app_assoc.
  - now rewrite (StripPrefix_no_match _ _ Hnp), (StripSuffix_no_match _ _ Hns),
      (StripPrefix_no_match _ _ Hnp).
Qed.

Lemma StripPrefix_StripSuffix_commute_witness :
  (length (lit "s2/") + length (lit ".cc") <= length (lit "s2/s2cell.cc"))%nat /\
  match StripPrefix (lit "s2/s2cell.cc") (lit "s2/") with
  | Some r => StripSuffix r (lit ".cc")
  | None => None
  end =
  match StripSuffix (lit "s2/s2cell.cc") (lit ".cc") with
  | Some r => StripPrefix r (lit "s2/")
  | None => None
  end.
Proof.
  assert (H : (length (lit "s2/") + length (lit ".cc")
               <= length (lit "s2/s2cell.cc"))%nat) by (cbn; lia).
  split; [exact H|].
  exact (StripPrefix_StripSuffix_commute (lit "s2/s2cell.cc") (lit "s2/")
           (lit ".cc") H).
Defined.

Lemma ReplaceCharacter_eq (remove replace_with : ascii) (len : nat) :
  forall str : list ascii,
    ReplaceCharacter str len remove replace_with =
    if (len <=? length str)%nat
    then Some (map (replaced remove replace_with) (firstn len str)
               ++ skipn len str)
    else None.
Proof.
  induction len as [|len IH]; intros str.
  - reflexivity.
  - destruct str as [|c str]; [reflexivity|].
    cbn [ReplaceCharacter length firstn skipn map app]. rewrite IH.
    change (S len <=? S (length str))%nat with (len <=? length str)%nat.
    now destruct (len <=? length str)%nat.
Qed.

(** X23. [ReplaceCharacter] over [len] characters replaces every [remove]
    among them by [replace_with] and keeps all else, the characters after
    the first [len] included; a [len] beyond the end of the memory is a walk
    out of it. *)
Theorem ReplaceCharacter_spec (str : list ascii) (len : nat)
    (remove replace_with : ascii) :
  ReplaceCharacter str len remove replace_with =
  if (len <=? length str)%nat
  then Some (map (fun c => if Ascii.eqb c remove then replace_with else c)
               (firstn len str)
             ++ skipn len str)
  else None.
Proof. apply ReplaceCharacter_eq. Qed.

(** X24. After [ReplaceCharacter] with a replacement other than [remove],
    no [remove] is left among the first [len] characters, and the memory has
    the length it had. *)
Theorem ReplaceCharacter_removes (str r : list ascii) (len : nat)
    (remove replace_with : ascii) :
  replace_with <> remove ->
  ReplaceCharacter str len remove replace_with = Some r ->
  ~ In remove (firstn len r) /\ length r = length str.
Proof.
  intros Hne. rewrite ReplaceCharacter_eq.
  destruct (Nat.leb_spec len (length str)) as [Hle|]; [|discriminate].
  intros [= <-]. split.
  - rewrite firstn_app, length_map, length_firstn.
    replace (len - Nat.min len (length str))%nat with 0%nat by lia.
    rewrite firstn_O, app_nil_r, firstn_all2
      by (rewrite length_map, length_firstn; lia).
    intros Hin. apply in_map_iff in Hin. destruct Hin as (c & Hc & _).
    unfold replaced in Hc. destruct (Ascii.eqb_spec c remove); congruence.
  - rewrite length_app, length_map, length_firstn, length_skipn. lia.
Qed.

Lemma ReplaceCharacter_removes_witness :
  "_"%char <> "-"%char /\
  ReplaceCharacter (lit "a-b-c") 3 "-"%char "_"%char = Some (lit "a_b-c") /\
  ~ In "-"%char (firstn 3 (lit "a_b-c")) /\
  length (lit "a_b-c") = length (lit "a-b-c").
Proof.
  assert (H1 : "_"%char <> "-"%char) by (intros H; discriminate H).
  assert (H2 : ReplaceCharacter (lit "a-b-c") 3 "-"%char "_"%char
               = Some (lit "a_b-c")) by reflexivity.
  split; [exact H1|]. split; [exact H2|].
  exact (ReplaceCharacter_removes _ _ _ _ _ H1 H2).
Defined.

Lemma replaced_idempotent (remove replace_with c : ascii) :
  replaced remove replace_with (replaced remove replace_with c)
  = replaced remove replace_with c.
Proof.
  unfold replaced. destruct (Ascii.eqb_spec c remove) as [->|Hc].
  - destruct (Ascii.eqb_spec replace_with remove); congruence.
  - destruct (Ascii.eqb_spec c remove); congruence.
Qed.

(** X25. [ReplaceCharacter] a second time, with the same arguments, changes
    nothing. *)
Theorem ReplaceCharacter_idempotent (str r : list ascii) (len : nat)
    (remove replace_with : ascii) :
  ReplaceCharacter str len remove replace_with = Some r ->
  ReplaceCharacter r len remove replace_with = Some r.
Proof.
  rewrite !ReplaceCharacter_eq.
  destruct (Nat.leb_spec len (length str)) as [Hle|]; [|discriminate].
  intros [= <-].
  assert (Hlen : length (map (replaced remove replace_with) (firstn len str))
                 = len) by (rewrite length_map, length_firstn; lia).
  rewrite length_app, Hlen.
  destruct (Nat.leb_spec len (len + length (skipn len str))); [|lia].
  rewrite firstn_app, skipn_app, Hlen, Nat.sub_diag.
  rewrite firstn_O, app_nil_r, firstn_all2, skipn_all2 by lia.
  cbn [skipn app]. rewrite map_map.
  f_equal. f_equal. apply map_ext. intros c. apply replaced_idempotent.
Qed.

Lemma ReplaceCharacter_idempotent_witness :
  ReplaceCharacter (lit "a-b-c") 5 "-"%char "_"%char = Some (lit "a_b_c") /\
  ReplaceCharacter (lit "a_b_c") 5 "-"%char "_"%char = Some (lit "a_b_c").
Proof.
  assert (H : ReplaceCharacter (lit "a-b-c") 5 "-"%char "_"%char
              = Some (lit "a_b_c")) by reflexivity.
  split; [exact H|].
  exact (ReplaceCharacter_idempotent _ _ _ _ _ H).
Defined.

(** X26. When the terminator is not white space, [SkipLeadingWhitespace]
    returns the string without the white space it starts with: what is
    skipped is white space, and what is returned starts with a character
    that is not (the terminator, when nothing else is left). *)
Theorem SkipLeadingWhitespace_spec (ascii_isspace : ascii -> bool)
    (str : cstring) :
  ascii_isspace NUL = false ->
  exists skipped r : cstring,
    SkipLeadingWhitespace ascii_isspace str = Some r /\
    str = skipped ++ r /\
    forallb ascii_isspace skipped = true /\
    ascii_isspace (hd NUL r) = false.
Proof.
  intros Hnul. induction str as [|c str IH].
  - exists [], []. cbn. rewrite Hnul. auto.
  - cbn [SkipLeadingWhitespace]. destruct (ascii_isspace c) eqn:Hc.
    + destruct IH as (skipped & r & Hr & Hsplit & Hws & Hhd).
      exists (c :: skipped), r. cbn [forallb app]. rewrite Hc, Hws, <- Hsplit.
      auto.
    + exists [], (c :: str). cbn. auto.
Qed.

Lemma SkipLeadingWhitespace_spec_witness :
  c_isspace NUL = false /\
  exists skipped r : cstring,
    SkipLeadingWhitespace c_isspace (lit "  s2") = Some r /\
    lit "  s2" = skipped ++ r /\
    forallb c_isspace skipped = true /\
    c_isspace (hd NUL r) = false.
Proof.
  assert (H : c_isspace NUL = false) by reflexivity.
  split; [exact H|].
  exact (SkipLeadingWhitespace_spec c_isspace (lit "  s2") H).
Defined.

(** ** str_join.h *)

Lemma StrJoin_loop_false (delim : cstring) (strs : list (list ascii)) :
  forall joined : list ascii,
    StrJoin_loop strs delim joined false
    = joined ++ concat (map (app delim) strs).
Proof.
  induction strs as [|s strs IH]; intros joined; cbn.
  - now rewrite app_nil_r.
  - rewrite IH. now rewrite <- !app_assoc.
Qed.

Lemma StrJoin_cons (delim : cstring) (s : list ascii)
    (strs : list (list ascii)) :
  StrJoin (s :: strs) delim = s ++ concat (map (app delim) strs).
Proof. unfold StrJoin. cbn. apply StrJoin_loop_false. Qed.

(** X27. Joining two sequences that are not empty, one after the other, is
    joining each and putting one delimiter between the two results. *)
Theorem StrJoin_app (xs ys : list (list ascii)) (delim : cstring) :
  xs <> [] -> ys <> [] ->
  StrJoin (xs ++ ys) delim = StrJoin xs delim ++ delim ++ StrJoin ys delim.
Proof.
  intros Hx Hy.
  destruct xs as [|x xs]; [contradiction|].
  destruct ys as [|y ys]; [contradiction|].
  cbn [app]. rewrite !StrJoin_cons, map_app, concat_app. cbn [map concat].
  now rewrite <- !app_assoc.
Qed.

Lemma StrJoin_app_witness :
  [lit "a"; lit "b"] <> [] /\ [lit "c"] <> [] /\
  StrJoin ([lit "a"; lit "b"] ++ [lit "c"]) (lit ", ")
  = StrJoin [lit "a"; lit "b"] (lit ", ") ++ lit ", " ++ StrJoin [lit "c"] (lit ", ").
Proof.
  assert (H1 : [lit "a"; lit "b"] <> []) by (intros H; discriminate H).
  assert (H2 : [lit "c"] <> []) by (intros H; discriminate H).
  split; [exact H1|]. split; [exact H2|].
  exact (StrJoin_app _ _ (lit ", ") H1 H2).
Defined.


(** ** match.cc: the comparisons that ignore case *)

Section IgnoreCaseProperties.

Variable memcasecmp : list ascii -> list ascii -> nat -> Z.

(** X29. [StartsWithIgnoreCase] and [EndsWithIgnoreCase] answer no for a
    text shorter than the piece; otherwise they answer, and only the first,
    respectively last, bytes of the text, as many as the piece has, are
    looked at: more text behind, respectively in front, changes nothing. *)
Theorem IgnoreCase_window (text piece : string_view) :
  ((length text < length piece)%nat ->
   StartsWithIgnoreCase memcasecmp text piece = Some false /\
   EndsWithIgnoreCase memcasecmp text piece = Some false) /\
  ((length piece <= length text)%nat ->
   (exists b b' : bool,
      StartsWithIgnoreCase memcasecmp text piece = Some b /\
      EndsWithIgnoreCase memcasecmp text piece = Some b') /\
   forall more : string_view,
     StartsWithIgnoreCase memcasecmp (text ++ more) piece
     = StartsWithIgnoreCase memcasecmp text piece /\
     EndsWithIgnoreCase memcasecmp (more ++ text) piece
     = EndsWithIgnoreCase memcasecmp text piece).
Proof.
  unfold StartsWithIgnoreCase, EndsWithIgnoreCase, substr. split.
  - intros Hlt.
    destruct (Nat.leb_spec (length piece) (length text)); [lia|]. auto.
  - intros Hle.
    destruct (Nat.leb_spec (length piece) (length text)); [|lia].
    destruct (Nat.leb_spec (length text - length piece) (length text)); [|lia].
    cbn [Nat.leb skipn]. split; [eauto|].
    intros more. rewrite !length_app.
    destruct (Nat.leb_spec (length piece) (length text + length more)); [|lia].
    destruct (Nat.leb_spec (length piece) (length more + length text)); [|lia].
    destruct (Nat.leb_spec (length more + length text - length piece)
                (length more + length text)); [|lia].
    split.
    + rewrite firstn_app.
      replace (length piece - length text)%nat with 0%nat by lia.
      now rewrite firstn_O, app_nil_r.
    + rewrite skipn_app.
      replace (length more + length text - length piece - length more)%nat
        with (length text - length piece)%nat by lia.
      rewrite skipn_all2 by lia. reflexivity.
Qed.

End IgnoreCaseProperties.
